(** * all-repos-self: the maintainer helper and the Python installer

    A shallow embedding of

    - [GH._parallel], the fan-out/fan-in fetch of [tasks/helper.py],
      together with the part of [concurrent.futures] it drives
      (a [ThreadPoolExecutor] with [max_workers=12], [submit],
      [as_completed], [Future.result] and the executor's [with] block);
    - [OpenPRs.run], the table of open pull requests of the same file,
      [Open.run] and the dispatch of [main];
    - [run] of [tasks/install_uv_python.py];
    - [apply_fix] of [transformers/bump_deps_tools.py].

    The thread pool is modelled as an interleaving transition system: a
    schedule is a list of atomic actions of the caller and of the pool's
    worker threads, and every statement about the fetch quantifies over
    all schedules. *)

From Stdlib Require Import List Arith Lia Permutation.
From Stdlib Require Import Strings.String Strings.Ascii.
From Stdlib Require Import Sorting.Sorted Structures.OrdersEx.
From stdpp Require Import base option list strings gmap.

(** * Strings *)

Module Str.

(** [s[n:]] *)
Fixpoint drop (n : nat) (s : string) : string :=
  match n, s with
  | 0, _ => s
  | S n', String _ s' => drop n' s'
  | S _, EmptyString => EmptyString
  end.

Definition is_space (c : ascii) : bool :=
  let n := nat_of_ascii c in
  (9 <=? n) && (n <=? 13) || (28 <=? n) && (n <=? 32).

Fixpoint lstrip (s : string) : string :=
  match s with
  | String c s' => if is_space c then lstrip s' else s
  | EmptyString => EmptyString
  end.

Fixpoint rstrip (s : string) : string :=
  match s with
  | String c s' =>
      match rstrip s' with
      | EmptyString => if is_space c then EmptyString else String c EmptyString
      | r => String c r
      end
  | EmptyString => EmptyString
  end.

(** [s.strip()] *)
Definition strip (s : string) : string := rstrip (lstrip s).

(** Code-point order of [str]. *)
Definition ltb (a b : string) : bool :=
  match String_as_OT.compare a b with Lt => true | _ => false end.

Definition min (a b : string) : string := if ltb b a then b else a.
Definition max (a b : string) : string := if ltb a b then b else a.

Fixpoint common (s1 s2 : string) : string :=
  match s1, s2 with
  | String c1 r1, String c2 r2 =>
      if Ascii.eqb c1 c2 then String c1 (common r1 r2) else EmptyString
  | _, _ => EmptyString
  end.

(** [os.path.commonprefix]: the common prefix of the least and the
    greatest string of the list. *)
Definition commonprefix (m : list string) : string :=
  match m with
  | [] => EmptyString
  | s :: m' => common (foldr min s m') (foldr max s m')
  end.

Definition quote : string := String (ascii_of_nat 34) EmptyString.

End Str.

(** * The objects of the GitHub client library *)

Module Github.

(** A failed request. *)
Definition GithubException : Type := string.

(** [github.PullRequest], as far as [OpenPRs.run] reads it;
    [updated_at] stands for [pr.updated_at.isoformat()]. *)
Record PullRequest : Type := {
  updated_at : string;
  html_url : string;
  title : string
}.

(** [github.Repository]: [repo.owner.login], [repo.name], and what
    iterating [repo.get_pulls()] delivers, page after page. *)
Record Repository : Type := {
  owner_login : string;
  name : string;
  get_pulls : list PullRequest * option GithubException
}.

End Github.

(** * [tasks/helper.py]: class [GH] *)

Module GH.

(** ** The values a mapping function can hand back *)

Section Parallel.
Context {T V E : Type}.

(** A suspended generator: the body has not run yet.  Advancing it
    yields the next item, stops, or raises. *)
Inductive generator : Type :=
| GStop
| GRaise (e : E)
| GYield (v : V) (g : generator).

(** What [func(d)] returns when it returns: an already materialised
    list, or a generator object whose body runs when it is iterated. *)
Inductive iterable : Type :=
| IList (l : list V)
| IGen (g : generator).

(** The outcome of the call [func(d)] itself. *)
Inductive call_result : Type :=
| CallRaises (e : E)
| CallReturns (it : iterable).

Fixpoint gen_items (g : generator) : list V :=
  match g with
  | GStop | GRaise _ => []
  | GYield v g' => v :: gen_items g'
  end.

Fixpoint gen_error (g : generator) : option E :=
  match g with
  | GStop => None
  | GRaise e => Some e
  | GYield _ g' => gen_error g'
  end.

(** The items one identifier contributes, and the exception (if any)
    that handling the identifier ends with. *)
Definition items_of (c : call_result) : list V :=
  match c with
  | CallRaises _ => []
  | CallReturns (IList l) => l
  | CallReturns (IGen g) => gen_items g
  end.

Definition failure_of (c : call_result) : option E :=
  match c with
  | CallRaises e => Some e
  | CallReturns (IList _) => None
  | CallReturns (IGen g) => gen_error g
  end.

(** [future.result()]: the value of the call, or its exception
    re-raised in the caller. *)
Definition future_result (c : call_result) : E + iterable :=
  match c with
  | CallRaises e => inl e
  | CallReturns it => inr it
  end.

(** [result.extend(data)]: appends the items one by one; a generator is
    run here, by whoever calls [extend], and may raise part-way. *)
Definition extend (result : list V) (it : iterable) : list V * option E :=
  match it with
  | IList l => (result ++ l, None)
  | IGen g => (result ++ gen_items g, gen_error g)
  end.

(** ** The executor and the caller *)

(** [ThreadPoolExecutor(max_workers=12)] *)
Definition max_workers : nat := 12.

Inductive wstate : Type :=
| Idle
| Busy (i : nat).

Inductive context : Type :=
| Caller
| Worker (w : nat).

(** Observable events, in the order they happen. *)
Inductive event : Type :=
| EvSubmit (i : nat) (d : T)
| EvCall (w : nat) (i : nat) (d : T)
| EvProduce (c : context) (i : nat) (v : V)
| EvDone (i : nat)
| EvCollect (i : nat)
| EvShutdown.

Inductive completion : Type :=
| Return (r : list V)
| Raise (e : E).

(** Where the caller stands in the body of [_parallel]. *)
Inductive pc : Type :=
| Submitting (rest : list T)
| Waiting (todo : list nat)
| Leaving (exn : option E)
| Done (o : completion).

Record state : Type := State {
  main : pc;
  submitted : list T;
  queue : list nat;
  workers : list wstate;
  finished : list (nat * call_result);
  result : list V;
  trace : list event
}.

Definition is_idle (w : wstate) : bool :=
  match w with Idle => true | Busy _ => false end.

Definition busy_id (w : wstate) : option nat :=
  match w with Idle => None | Busy i => Some i end.

Definition busy_ids (ws : list wstate) : list nat := omap busy_id ws.

(** Number of calls of the mapping function that are executing. *)
Definition in_flight (s : state) : nat := length (busy_ids (workers s)).

(** [_adjust_thread_count]: an idle thread is reused, otherwise a new
    thread is started while fewer than [max_workers] exist. *)
Definition adjust_thread_count (ws : list wstate) : list wstate :=
  if existsb is_idle ws then ws
  else if length ws <? max_workers then ws ++ [Idle]
  else ws.

Fixpoint outcome (i : nat) (fin : list (nat * call_result)) : option call_result :=
  match fin with
  | [] => None
  | (j, c) :: fin' => if Nat.eqb i j then Some c else outcome i fin'
  end.

Definition worker_events (w i : nat) (c : call_result) : list event :=
  match c with
  | CallReturns (IList l) => EvProduce (Worker w) i <$> l
  | _ => []
  end.

Definition caller_events (i : nat) (c : call_result) : list event :=
  match c with
  | CallReturns (IGen g) => EvProduce Caller i <$> gen_items g
  | _ => []
  end.

Inductive action : Type :=
| Submit
| AsCompleted
| Take (w : nat)
| Finish (w : nat)
| Collect (i : nat)
| EndLoop
| Exit.

Definition init (data : list T) : state :=
  State (Submitting data) [] [] [] [] [] [].

Section WithFunc.
Variable func : T → call_result.

(** One atomic action; [None] when the action is not enabled. *)
Definition exec (a : action) (s : state) : option state :=
  match a, main s with
  | Submit, Submitting (d :: rest) =>
      (* executor.submit(func, d) *)
      let i := length (submitted s) in
      Some (State (Submitting rest) (submitted s ++ [d]) (queue s ++ [i])
                  (adjust_thread_count (workers s)) (finished s) (result s)
                  (trace s ++ [EvSubmit i d]))
  | AsCompleted, Submitting [] =>
      (* as_completed(future_to_url) *)
      Some (State (Waiting (seq 0 (length (submitted s)))) (submitted s) (queue s)
                  (workers s) (finished s) (result s) (trace s))
  | Take w, _ =>
      (* an idle worker thread takes the oldest work item and calls func *)
      match workers s !! w, queue s with
      | Some Idle, i :: q =>
          d ← submitted s !! i;
          Some (State (main s) (submitted s) q (<[w := Busy i]> (workers s))
                      (finished s) (result s) (trace s ++ [EvCall w i d]))
      | _, _ => None
      end
  | Finish w, _ =>
      (* the call returns or raises; the future is set *)
      match workers s !! w with
      | Some (Busy i) =>
          d ← submitted s !! i;
          let c := func d in
          Some (State (main s) (submitted s) (queue s) (<[w := Idle]> (workers s))
                      (finished s ++ [(i, c)]) (result s)
                      (trace s ++ worker_events w i c ++ [EvDone i]))
      | _ => None
      end
  | Collect i, Waiting todo =>
      (* as_completed yields a finished future; the loop body runs *)
      if bool_decide (i ∈ todo) then
        c ← outcome i (finished s);
        let tr := trace s ++ EvCollect i :: caller_events i c in
        match future_result c with
        | inl e =>
            Some (State (Leaving (Some e)) (submitted s) (queue s) (workers s)
                        (finished s) (result s) tr)
        | inr it =>
            let '(r, exn) := extend (result s) it in
            let m := match exn with
                     | None => Waiting (filter (λ j, j ≠ i) todo)
                     | Some e => Leaving (Some e)
                     end in
            Some (State m (submitted s) (queue s) (workers s) (finished s) r tr)
        end
      else None
  | EndLoop, Waiting [] =>
      Some (State (Leaving None) (submitted s) (queue s) (workers s)
                  (finished s) (result s) (trace s))
  | Exit, Leaving exn =>
      (* __exit__: shutdown(wait=True) joins the worker threads *)
      match queue s, busy_ids (workers s) with
      | [], [] =>
          let o := match exn with
                   | None => Return (result s)
                   | Some e => Raise e
                   end in
          Some (State (Done o) (submitted s) (queue s) (workers s)
                      (finished s) (result s) (trace s ++ [EvShutdown]))
      | _, _ => None
      end
  | _, _ => None
  end.

Fixpoint steps (sched : list action) (s : state) : option state :=
  match sched with
  | [] => Some s
  | a :: sched' => s' ← exec a s; steps sched' s'
  end.

Definition completed (s : state) : option completion :=
  match main s with Done o => Some o | _ => None end.

(** [GH._parallel(data, func)] under the schedule [sched]: what the call
    returns or raises, [None] when [sched] is not a complete run. *)
Definition _parallel (data : list T) (sched : list action) : option completion :=
  s ← steps sched (init data); completed s.

(** *** What a trace records *)

Definition submits (tr : list event) : list (nat * T) :=
  omap (λ ev, match ev with EvSubmit i d => Some (i, d) | _ => None end) tr.

Definition calls (tr : list event) : list (nat * T) :=
  omap (λ ev, match ev with EvCall _ i d => Some (i, d) | _ => None end) tr.

Definition done_ids (tr : list event) : list nat :=
  omap (λ ev, match ev with EvDone i => Some i | _ => None end) tr.

Definition collected (tr : list event) : list nat :=
  omap (λ ev, match ev with EvCollect i => Some i | _ => None end) tr.

Definition productions (tr : list event) : list (context * nat * V) :=
  omap (λ ev, match ev with EvProduce c i v => Some (c, i, v) | _ => None end) tr.

(** The items of the [i]-th identifier of [data], and how handling it
    fails. *)
Definition block (data : list T) (i : nat) : list V :=
  match data !! i with
  | Some d => items_of (func d)
  | None => []
  end.

Definition fails (data : list T) (i : nat) : option E :=
  d ← data !! i; failure_of (func d).

(** *** Invariants of the reachable states *)

Definition rest_of (m : pc) : list T :=
  match m with Submitting rest => rest | _ => [] end.

Definition event_ok (data : list T) (ev : event) : Prop :=
  match ev with
  | EvProduce (Worker _) i _ => ∃ d l, data !! i = Some d ∧ func d = CallReturns (IList l)
  | EvProduce Caller i _ => ∃ d g, data !! i = Some d ∧ func d = CallReturns (IGen g)
  | _ => True
  end.

Record pool_inv (data : list T) (s : state) : Prop := PoolInv {
  pool_data : submitted s ++ rest_of (main s) = data;
  pool_submits : (submits (trace s)).*1 = seq 0 (length (submitted s))
                 ∧ (submits (trace s)).*2 = submitted s;
  pool_calls : (calls (trace s)).*1 = seq 0 (length (calls (trace s)))
               ∧ (calls (trace s)).*2 = take (length (calls (trace s))) (submitted s);
  pool_queue : length (calls (trace s)) + length (queue s) = length (submitted s)
               ∧ queue s = seq (length (calls (trace s))) (length (queue s));
  pool_ids : busy_ids (workers s) ++ (finished s).*1 ≡ₚ seq 0 (length (calls (trace s)));
  pool_finished : Forall (λ ic, ∃ d, submitted s !! ic.1 = Some d ∧ ic.2 = func d) (finished s);
  pool_done : done_ids (trace s) = (finished s).*1;
  pool_bound : length (workers s) ≤ max_workers;
  pool_spawn : submitted s ≠ [] → workers s ≠ [];
  pool_events : Forall (event_ok data) (trace s)
}.

Definition all_collected (data : list T) (s : state) : Prop :=
  collected (trace s) ≡ₚ seq 0 (length data)
  ∧ result s = flat_map (block data) (collected (trace s))
  ∧ Forall (λ i, fails data i = None) (collected (trace s)).

Definition quiescent (s : state) : Prop :=
  queue s = [] ∧ busy_ids (workers s) = [].

Definition main_inv (data : list T) (s : state) : Prop :=
  match main s with
  | Submitting _ => result s = [] ∧ collected (trace s) = []
  | Waiting todo =>
      todo ++ collected (trace s) ≡ₚ seq 0 (length data)
      ∧ result s = flat_map (block data) (collected (trace s))
      ∧ Forall (λ i, fails data i = None) (collected (trace s))
  | Leaving None => all_collected data s
  | Leaving (Some e) => ∃ i, fails data i = Some e
  | Done (Return r) =>
      r = result s ∧ all_collected data s ∧ quiescent s
      ∧ ∃ tr, trace s = tr ++ [EvShutdown]
  | Done (Raise e) =>
      (∃ i, fails data i = Some e) ∧ quiescent s
      ∧ ∃ tr, trace s = tr ++ [EvShutdown]
  end.

Definition inv (data : list T) (s : state) : Prop :=
  pool_inv data s ∧ main_inv data s.

(** *** Termination measure and a default scheduler *)

Definition main_measure (s : state) : nat :=
  match main s with
  | Submitting rest => 4 * length rest + length (submitted s) + 3
  | Waiting todo => length todo + 2
  | Leaving _ => 1
  | Done _ => 0
  end.

Definition measure (s : state) : nat :=
  main_measure s + 2 * length (queue s) + in_flight s.

Fixpoint first_busy (ws : list wstate) : option nat :=
  match ws with
  | [] => None
  | Idle :: ws' => S <$> first_busy ws'
  | Busy _ :: _ => Some 0
  end.

(** A worker action that is enabled whenever the pool has work. *)
Definition pool_action (s : state) : action :=
  match first_busy (workers s) with
  | Some w => Finish w
  | None => Take 0
  end.

Definition pick (s : state) : action :=
  match main s with
  | Submitting (_ :: _) => Submit
  | Submitting [] => AsCompleted
  | Waiting [] => EndLoop
  | Waiting (i :: _) =>
      match outcome i (finished s) with
      | Some _ => Collect i
      | None => pool_action s
      end
  | Leaving _ =>
      match queue s, busy_ids (workers s) with
      | [], [] => Exit
      | _, _ => pool_action s
      end
  | Done _ => Exit
  end.

(** The schedule [pick] produces in [n] steps. *)
Fixpoint default_schedule (n : nat) (s : state) : list action :=
  match n with
  | 0 => []
  | S n' =>
      match main s with
      | Done _ => []
      | _ =>
          match exec (pick s) s with
          | Some s' => pick s :: default_schedule n' s'
          | None => []
          end
      end
  end.

End WithFunc.
End Parallel.

(** ** The [GH] client *)

Import Github.

(** An authenticated [GH] client: the contents of [repos.json], in
    file order, and the hosting service behind [get_repo]. *)
Record t : Type := {
  repos_json : list (string * string);
  get_repo : string → GithubException + Repository
}.

(** [[url[15:] for url in json.loads(raw_text).values()]] *)
Definition repo_names (self : t) : list string :=
  (λ kv, Str.drop 15 kv.2) <$> repos_json self.

(** A generator that yields the items of [l] and then stops or raises. *)
Fixpoint yield_all {V E} (l : list V) (fin : option E) : @generator V E :=
  match l with
  | [] => match fin with None => GStop | Some e => GRaise e end
  | v :: l' => GYield v (yield_all l' fin)
  end.

(** [_get_pulls] is a generator function: calling it only creates the
    generator; [get_repo] and the paging run when it is iterated. *)
Definition _get_pulls (self : t) (name : string)
    : @call_result (Repository * PullRequest) GithubException :=
  CallReturns (IGen
    match get_repo self name with
    | inl e => GRaise e
    | inr repo =>
        yield_all ((λ pr, (repo, pr)) <$> (get_pulls repo).1) (get_pulls repo).2
    end).

Definition open_prs (self : t) (sched : list action)
    : option (@completion (Repository * PullRequest) GithubException) :=
  _parallel (_get_pulls self) (repo_names self) sched.

End GH.

(** * [tasks/helper.py]: class [OpenPRs] *)

Module OpenPRs.
Import Github.

(** [sorted(iterable, key=..., reverse=...)]: a stable sort by [key];
    with [reverse] every comparison is reversed. *)
Section Sorted.
Context {A K : Type} (key : A → K) (ltb : K → K → bool).

Fixpoint insert (x : A) (l : list A) : list A :=
  match l with
  | [] => [x]
  | y :: l' => if ltb (key y) (key x) then y :: insert x l' else x :: y :: l'
  end.

Definition stable_sort (l : list A) : list A := foldr insert [] l.

(** No element comes after one with a strictly greater key. *)
Definition ordered (l : list A) : Prop :=
  StronglySorted (λ a b, ltb (key b) (key a) = false) l.

(** No element of [b1] has the key of an element of [b2]. *)
Definition no_ties (b1 b2 : list A) : Prop :=
  ∀ x y, x ∈ b1 → y ∈ b2 → key x ≠ key y.

End Sorted.

Definition sorted {A K} (key : A → K) (ltb : K → K → bool) (reverse : bool)
    (l : list A) : list A :=
  stable_sort key (if reverse then flip ltb else ltb) l.

(** Tuples of strings compare lexicographically. *)
Definition key_compare (a b : string * string * string) : comparison :=
  match String_as_OT.compare a.1.1 b.1.1 with
  | Eq => match String_as_OT.compare a.1.2 b.1.2 with
          | Eq => String_as_OT.compare a.2 b.2
          | c => c
          end
  | c => c
  end.

Definition key_ltb (a b : string * string * string) : bool :=
  match key_compare a b with Lt => true | _ => false end.

(** [lambda d: (d[0].owner.login, d[0].name, d[1].updated_at.isoformat())] *)
Definition sort_key (d : Repository * PullRequest) : string * string * string :=
  (owner_login d.1, name d.1, updated_at d.2).

Record Table : Type := {
  table_title : string;
  table_columns : list string;
  table_rows : list (list string)
}.

Definition row (prefix : string) (d : Repository * PullRequest) : list string :=
  [Str.drop (String.length prefix) (updated_at d.2);
   owner_login d.1;
   name d.1;
   "[link=" +:+ Str.quote +:+ html_url d.2 +:+ Str.quote +:+ "]"
     +:+ Str.strip (title d.2) +:+ "[/link]"].

(** The loop over the sorted pairs: [check_call] opens the page when
    [opts.open] is set, and a failing [check_call] ends the loop. *)
Fixpoint add_rows (check_call : list string → bool) (opts_open : bool)
    (prefix : string) (l : list (Repository * PullRequest))
    : list string + list (list string) :=
  match l with
  | [] => inr []
  | d :: l' =>
      if opts_open && negb (check_call ["open"; html_url d.2])
      then inl ["open"; html_url d.2]
      else match add_rows check_call opts_open prefix l' with
           | inl cmd => inl cmd
           | inr rows => inr (row prefix d :: rows)
           end
  end.

Inductive run_result : Type :=
| GithubError (e : GithubException)
| CalledProcessError (cmd : list string)
| Printed (table : Table).

(** The body of [run] once [github.open_prs] has its value. *)
Definition render (check_call : list string → bool) (opts_open : bool)
    (open_prs : list (Repository * PullRequest)) : run_result :=
  let prefix := Str.commonprefix ((λ d, updated_at d.2) <$> open_prs) in
  match add_rows check_call opts_open prefix
          (sorted sort_key key_ltb true open_prs) with
  | inl cmd => CalledProcessError cmd
  | inr rows =>
      Printed {| table_title := "Pull requests @ " +:+ prefix;
                 table_columns := ["Date"; "Org"; "Repo"; "Title"];
                 table_rows := rows |}
  end.

(** [OpenPRs.run(opts, github)]; the cached [github.open_prs] is
    computed once, under the schedule [sched]. *)
Definition run (check_call : list string → bool) (opts_open : bool)
    (github : GH.t) (sched : list GH.action) : option run_result :=
  match GH.open_prs github sched with
  | None => None
  | Some (GH.Raise e) => Some (GithubError e)
  | Some (GH.Return prs) => Some (render check_call opts_open prs)
  end.

(** Pairs fetched for different identifiers never have equal keys. *)
Definition no_shared_keys (github : GH.t) : Prop :=
  ∀ i j x y, i ≠ j →
    x ∈ GH.block (GH._get_pulls github) (GH.repo_names github) i →
    y ∈ GH.block (GH._get_pulls github) (GH.repo_names github) j →
    sort_key x ≠ sort_key y.

(** The rows shown are the same under every schedule of the fetch. *)
Definition rows_independent (github : GH.t) : Prop :=
  ∀ check_call opts_open sched1 sched2 t1 t2,
    run check_call opts_open github sched1 = Some (Printed t1) →
    run check_call opts_open github sched2 = Some (Printed t2) →
    table_rows t1 = table_rows t2.

End OpenPRs.

(** * [tasks/install_uv_python.py] *)

Module InstallUvPython.

(** [a / b] on paths, for a relative [b]. *)
Definition joinpath (a b : string) : string := a +:+ "/" +:+ b.

(** [s.split(sep)] for a one-character separator. *)
Fixpoint split (sep : ascii) (s : string) : list string :=
  match s with
  | EmptyString => [EmptyString]
  | String c s' =>
      if Ascii.eqb c sep then EmptyString :: split sep s'
      else match split sep s' with
           | w :: ws => String c w :: ws
           | [] => [String c EmptyString]
           end
  end.

(** [sep.join(l)] *)
Fixpoint join (sep : string) (l : list string) : string :=
  match l with
  | [] => EmptyString
  | [w] => w
  | w :: l' => w +:+ sep +:+ join sep l'
  end.

(** The dictionary [py], in insertion order. *)
Definition py : list (string * list string) :=
  [("cpython", ["3.8.20"; "3.9.21"; "3.10.16"; "3.11.11"; "3.12.9"; "3.13.2"]);
   ("pypy", ["3.8.16"; "3.9.19"; "3.10.14"])].

(** [py[impl]] *)
Fixpoint getitem (impl : string) (d : list (string * list string)) : list string :=
  match d with
  | [] => []
  | (k, v) :: d' => if String.eqb k impl then v else getitem impl d'
  end.

Definition src (home : string) : string :=
  joinpath home "Library/Application Support/uv/python".

Definition dest (home : string) : string :=
  joinpath (joinpath home ".local") "bin".

Definition minor (version : string) : string :=
  join "." (take 2 (split "." version)).

(** The two [check_call]s of one pass through the inner loop. *)
Definition install_one (home impl version : string) : list (list string) :=
  [["uv"; "python"; "install"; impl +:+ "-" +:+ version; "--no-progress"; "-r"];
   ["ln"; "-s"; "-f";
    joinpath (joinpath (joinpath (src home) (impl +:+ "-" +:+ version +:+ "-macos-aarch64-none")) "bin") "python";
    joinpath (dest home)
      ((if String.eqb impl "cpython" then "python" else "pypy") +:+ minor version)]].

(** The final [check_call]: the unversioned link. *)
Definition link_python (home : string) : list string :=
  ["ln"; "-s"; "-f";
   joinpath (joinpath (joinpath (src home)
     ("cpython-" +:+ List.last (getitem "cpython" py) EmptyString +:+ "-macos-aarch64-none")) "bin") "python";
   joinpath (dest home) "python"].

(** The commands of the two nested loops. *)
Definition loop_commands (home : string) : list (list string) :=
  flat_map (λ '(impl, versions), flat_map (install_one home impl) versions) py.

(** Every command [run] issues, in order. *)
Definition commands (home : string) : list (list string) :=
  loop_commands home ++ [link_python home].

(** The machine [run] acts on: the symbolic links by path, the
    toolchains [uv] has installed, and the commands executed so far. *)
Record world : Type := World {
  links : gmap string string;
  installed : list string;
  executed : list (list string)
}.

(** What a command that exits with status 0 does. *)
Definition effect (cmd : list string) (w : world) : world :=
  match cmd with
  | ["ln"; "-s"; "-f"; target; link] =>
      World (<[link := target]> (links w)) (installed w) (executed w ++ [cmd])
  | ["uv"; "python"; "install"; spec; _; _] =>
      World (links w) (installed w ++ [spec]) (executed w ++ [cmd])
  | _ => World (links w) (installed w) (executed w ++ [cmd])
  end.

(** [check_call] for each command in turn; a non-zero exit status
    raises [CalledProcessError] and ends the run. *)
Fixpoint check_calls (ok : list string → bool) (cmds : list (list string))
    (w : world) : list string + world :=
  match cmds with
  | [] => inr w
  | cmd :: cmds' =>
      if ok cmd then check_calls ok cmds' (effect cmd w) else inl cmd
  end.

Definition run (ok : list string → bool) (home : string) (w : world)
    : list string + world :=
  check_calls ok (commands home) w.

(** A version string read as numbers, for comparing releases. *)
Definition digit (c : ascii) : nat := nat_of_ascii c - 48.

Fixpoint parse_nat (acc : nat) (s : string) : nat :=
  match s with
  | EmptyString => acc
  | String c s' => parse_nat (10 * acc + digit c) s'
  end.

Definition version_info (version : string) : list nat :=
  parse_nat 0 <$> split "." version.

Fixpoint version_leb (a b : list nat) : bool :=
  match a, b with
  | [], _ => true
  | _ :: _, [] => false
  | x :: a', y :: b' => (x <? y) || (x =? y) && version_leb a' b'
  end.

End InstallUvPython.

(** * Concrete inputs *)

Module Examples.
Import Github GH.

(** The example of the specification: three identifiers, two items
    each. *)
Definition abc : list string := ["a"; "b"; "c"].

Definition two_items (x : string) : @call_result string string :=
  CallReturns (IList [x +:+ "1"; x +:+ "2"]).

(** The same, except that the call for ["b"] raises. *)
Definition b_fails (x : string) : @call_result string string :=
  if String.eqb x "b" then CallRaises "boom" else two_items x.

Definition nothing (x : string) : @call_result string string :=
  CallReturns (IList []).

(** One worker runs the three tasks one after the other; the caller
    collects them as they finish. *)
Definition in_turn : list action :=
  [Submit; Submit; Submit; AsCompleted;
   Take 0; Finish 0; Collect 0;
   Take 0; Finish 0; Collect 1;
   Take 0; Finish 0; Collect 2;
   EndLoop; Exit].

(** Thirteen identifiers, one more than the pool has workers. *)
Definition thirteen : list string :=
  ["r0"; "r1"; "r2"; "r3"; "r4"; "r5"; "r6"; "r7"; "r8"; "r9";
   "r10"; "r11"; "r12"].

(** Every submission finds all threads busy, so the pool grows to its
    limit; the thirteenth task has to wait in the queue. *)
Definition saturate : list action :=
  flat_map (λ w, [Submit; Take w]) (seq 0 12) ++ [Submit].

(** A repository with open pull requests. *)
Definition pr_1 : PullRequest :=
  {| updated_at := "2024-05-02T10:00:00+00:00";
     html_url := "https://github.com/tox-dev/tox/pull/1";
     title := "Bump deps and tools" |}.

Definition pr_2 : PullRequest :=
  {| updated_at := "2024-05-02T10:00:00+00:00";
     html_url := "https://github.com/tox-dev/tox/pull/2";
     title := "Drop Python 3.8" |}.

Definition pr_3 : PullRequest :=
  {| updated_at := "2024-04-30T08:15:00+00:00";
     html_url := "https://github.com/tox-dev/pyproject-api/pull/3";
     title := " Fix typing " |}.

Definition tox (prs : list PullRequest) : Repository :=
  {| owner_login := "tox-dev"; name := "tox"; get_pulls := (prs, None) |}.

Definition pyproject_api : Repository :=
  {| owner_login := "tox-dev"; name := "pyproject-api";
     get_pulls := ([pr_3], None) |}.

(** A client that knows one repository. *)
Definition one_repo : GH.t :=
  {| repos_json := [("tox", "git@github.com:tox-dev/tox")];
     get_repo := λ name,
       if String.eqb name "tox-dev/tox" then inr (tox [pr_1])
       else inl "404" |}.

Definition one_task : list action :=
  [Submit; AsCompleted; Take 0; Finish 0; Collect 0; EndLoop; Exit].

(** A client that knows two repositories. *)
Definition two_repos : GH.t :=
  {| repos_json := [("tox", "git@github.com:tox-dev/tox");
                    ("pyproject-api", "git@github.com:tox-dev/pyproject-api")];
     get_repo := λ name,
       if String.eqb name "tox-dev/tox" then inr (tox [pr_1; pr_2])
       else if String.eqb name "tox-dev/pyproject-api" then inr pyproject_api
       else inl "404" |}.

(** A client whose [repos.json] reaches the same repository under two
    spellings of its name; the two requests see different pull requests
    with the same time stamp. *)
Definition same_repo_twice : GH.t :=
  {| repos_json := [("tox", "git@github.com:tox-dev/tox");
                    ("Tox", "git@github.com:tox-dev/Tox")];
     get_repo := λ name,
       if String.eqb name "tox-dev/tox" then inr (tox [pr_1])
       else if String.eqb name "tox-dev/Tox" then inr (tox [pr_2])
       else inl "404" |}.

(** Two tasks, collected in the order submitted, or the other way. *)
Definition first_then_second : list action :=
  [Submit; Submit; AsCompleted; Take 0; Finish 0; Take 0; Finish 0;
   Collect 0; Collect 1; EndLoop; Exit].

Definition second_then_first : list action :=
  [Submit; Submit; AsCompleted; Take 0; Finish 0; Take 0; Finish 0;
   Collect 1; Collect 0; EndLoop; Exit].

Definition always_ok (cmd : list string) : bool := true.

Definition empty_world : InstallUvPython.world :=
  InstallUvPython.World ∅ [] [].

End Examples.

(** * Tables read off [tasks/install_uv_python.py] *)

Module InstallTables.
Import InstallUvPython.

(** The link an [ln -s -f target link] command makes. *)
Definition link_of (cmd : list string) : option (string * string) :=
  match cmd with
  | ["ln"; "-s"; "-f"; target; link] => Some (link, target)
  | _ => None
  end.

(** Link name and toolchain directory of one listed version. *)
Definition versioned (impl version : string) : string * string :=
  ((if String.eqb impl "cpython" then "python" else "pypy") +:+ minor version,
   impl +:+ "-" +:+ version +:+ "-macos-aarch64-none").

(** Every link [run] makes, in order: name under [dest], directory
    under [src]. *)
Definition link_table : list (string * string) :=
  flat_map (λ '(impl, versions), versioned impl <$> versions) py
  ++ [("python",
       "cpython-" +:+ List.last (getitem "cpython" py) EmptyString
         +:+ "-macos-aarch64-none")].

Definition interpreter (home dir : string) : string :=
  joinpath (joinpath (joinpath (src home) dir) "bin") "python".

(** The links after a sequence of commands that all succeed. *)
Definition assign (m : gmap string string) (cmds : list (list string))
    : gmap string string :=
  foldl (λ m cmd, match link_of cmd with
                  | Some (link, target) => <[link := target]> m
                  | None => m
                  end) m cmds.

(** The paths [run] links, in order. *)
Definition link_paths (home : string) : list string :=
  (λ p, joinpath (dest home) p.1) <$> link_table.

(** A string without the separator. *)
Fixpoint lacks (sep : ascii) (s : string) : bool :=
  match s with
  | EmptyString => true
  | String c s' => negb (Ascii.eqb c sep) && lacks sep s'
  end.

End InstallTables.

(** * [tasks/helper.py]: class [Open] and [main] *)

Module Open.
Import Github.

(** [org, repo = i.split("/")]: unpacking needs exactly two parts. *)
Definition unpack2 (parts : list string) : option (string * string) :=
  match parts with
  | [org; repo] => Some (org, repo)
  | _ => None
  end.

Definition url (org repo suffix : string) : string :=
  "https://github.com/" +:+ org +:+ "/" +:+ repo +:+ "/" +:+ suffix.

Definition row (org repo suffix : string) : list string :=
  [org;
   "[link=" +:+ Str.quote +:+ url org repo suffix +:+ Str.quote +:+ "]"
     +:+ repo +:+ "[/link]"].

(** An owner and a repository, neither containing a slash, and the
    name [repos.json] has for them. *)
Definition well_formed (p : string * string) : Prop :=
  InstallTables.lacks "/" p.1 = true ∧ InstallTables.lacks "/" p.2 = true.

Definition full_name (p : string * string) : string := p.1 +:+ "/" +:+ p.2.

Inductive error : Type :=
| ValueError
| CalledProcessError (cmd : list string).

(** The loop of [run]: the names are split one at a time, so the pages
    of the names before a bad one have been opened when the loop ends.
    The first component lists the [check_call]s made, in order. *)
Fixpoint add_rows (check_call : list string → bool) (suffix : string)
    (names : list string) : list (list string) * (error + list (list string)) :=
  match names with
  | [] => ([], inr [])
  | i :: names' =>
      match unpack2 (InstallUvPython.split "/" i) with
      | None => ([], inl ValueError)
      | Some (org, repo) =>
          let cmd := ["open"; url org repo suffix] in
          if check_call cmd then
            let '(calls, r) := add_rows check_call suffix names' in
            (cmd :: calls,
             match r with
             | inl e => inl e
             | inr rows => inr (row org repo suffix :: rows)
             end)
          else ([cmd], inl (CalledProcessError cmd))
      end
  end.

(** [Open.run(opts, github)]: the [check_call]s made, and the table
    printed or the exception raised. *)
Definition run (check_call : list string → bool) (suffix : string)
    (github : GH.t) : list (list string) * (error + OpenPRs.Table) :=
  let '(calls, r) := add_rows check_call suffix (GH.repo_names github) in
  (calls,
   match r with
   | inl e => inl e
   | inr rows =>
       inr {| OpenPRs.table_title := "Open";
              OpenPRs.table_columns := ["Org"; "Repo"];
              OpenPRs.table_rows := rows |}
   end).

End Open.

Module Main.

(** The command classes registered by [main], in order. *)
Inductive command : Type :=
| OpenPRs
| Open.

Definition parser_name_alias_help (c : command) : string * string * string :=
  match c with
  | OpenPRs => ("pr", "p", "show open PRs")
  | Open => ("open", "o", "open GitHub page")
  end.

Definition cmd_classes : list command := [OpenPRs; Open].

(** [opts.cmd_name in c.parser_name_alias_help()[:2]] *)
Definition answers_to (cmd_name : string) (c : command) : bool :=
  let '(name, alias, _) := parser_name_alias_help c in
  String.eqb cmd_name name || String.eqb cmd_name alias.

(** [next(c for c in commands if ...)]; [None] is [StopIteration]. *)
Definition to_run (cmd_name : string) : option command :=
  List.find (answers_to cmd_name) cmd_classes.

End Main.

(** * [transformers/bump_deps_tools.py] *)

Module BumpDepsTools.

(** The three [autofix_lib.run] calls of [apply_fix], each with its
    [check] flag ([True] unless given); [executable] is
    [sys.executable] and [pc] the constant [PC]. *)
Definition fix_commands (executable pc : string) : list (list string * bool) :=
  [([executable; "-m"; "bump_deps_index"; "-p"; "no"], true);
   ([pc; "autoupdate"; "-j"; "12"], true);
   ([pc; "run"; "--all-files"], false)].

(** Running commands in turn: with [check] a non-zero exit status
    raises [CalledProcessError], without it the status is dropped.  The
    result lists the commands run and the command that raised. *)
Fixpoint run_all (ok : list string → bool) (cmds : list (list string * bool))
    : list (list string) * option (list string) :=
  match cmds with
  | [] => ([], None)
  | (cmd, check) :: cmds' =>
      if check && negb (ok cmd) then ([cmd], Some cmd)
      else let '(ran, exn) := run_all ok cmds' in (cmd :: ran, exn)
  end.

Definition apply_fix (ok : list string → bool) (executable pc : string)
    : list (list string) * option (list string) :=
  run_all ok (fix_commands executable pc).

End BumpDepsTools.

Module MoreExamples.
Import Github GH.

(** A [repos.json] with a repository name that has no owner part. *)
Definition bad_name : GH.t :=
  {| repos_json := [("tox", "git@github.com:tox-dev/tox");
                    ("broken", "git@github.com:tox");
                    ("filelock", "git@github.com:tox-dev/filelock")];
     get_repo := λ name, inl "404" |}.

(** Both calls of the mapping function raise. *)
Definition both_fail (x : string) : @call_result string string :=
  if String.eqb x "a" then CallRaises "first" else CallRaises "second".

Definition ab : list string := ["a"; "b"].

(** A mapping function that hands back a generator. *)
Definition lazily (x : string) : @call_result string string :=
  CallReturns (IGen (GYield (x +:+ "1") (GYield (x +:+ "2") GStop))).

End MoreExamples.

(** * The reachable states of [_parallel] *)

Section ParallelFacts.
Import GH.
Context {T V E : Type}.
Implicit Types (ws : list wstate) (tr : list (@event T V)).

Lemma busy_ids_app ws1 ws2 : busy_ids (ws1 ++ ws2) = busy_ids ws1 ++ busy_ids ws2.
Proof. apply omap_app. Qed.

Lemma busy_ids_length ws : length (busy_ids ws) ≤ length ws.
Proof.
  induction ws as [|[|i] ws IH]; simpl; [done| |];
    change (omap busy_id ws) with (busy_ids ws); lia.
Qed.

Lemma busy_ids_adjust ws : busy_ids (adjust_thread_count ws) = busy_ids ws.
Proof.
  unfold adjust_thread_count.
  destruct (existsb is_idle ws); [done|].
  destruct (length ws <? max_workers); [|done].
  rewrite busy_ids_app. simpl. apply app_nil_r.
Qed.

Lemma busy_ids_take ws w i :
  ws !! w = Some Idle → busy_ids (<[w := Busy i]> ws) ≡ₚ i :: busy_ids ws.
Proof.
  intros Hw.
  rewrite <- (take_drop_middle ws w Idle Hw) at 2.
  rewrite insert_take_drop by (eapply lookup_lt_Some; eauto).
  rewrite !busy_ids_app. simpl.
  symmetry. apply Permutation_middle.
Qed.

Lemma busy_ids_finish ws w i :
  ws !! w = Some (Busy i) → busy_ids ws ≡ₚ i :: busy_ids (<[w := Idle]> ws).
Proof.
  intros Hw.
  rewrite <- (take_drop_middle ws w (Busy i) Hw) at 1.
  rewrite insert_take_drop by (eapply lookup_lt_Some; eauto).
  rewrite !busy_ids_app. simpl.
  symmetry. apply Permutation_middle.
Qed.

Lemma busy_ids_nil_lookup ws w i : busy_ids ws = [] → ws !! w ≠ Some (Busy i).
Proof.
  intros Hnil Hw. pose proof (busy_ids_finish ws w i Hw) as Hp.
  rewrite Hnil in Hp. by apply Permutation_nil_cons in Hp.
Qed.

Lemma adjust_length ws :
  length ws ≤ max_workers → length (adjust_thread_count ws) ≤ max_workers.
Proof.
  intros Hle. unfold adjust_thread_count.
  destruct (existsb is_idle ws); [done|].
  destruct (Nat.ltb_spec (length ws) max_workers); [|done].
  rewrite length_app. simpl. lia.
Qed.

Lemma adjust_nonempty ws : adjust_thread_count ws ≠ [].
Proof.
  unfold adjust_thread_count. destruct ws as [|w ws]; [discriminate|].
  destruct (existsb _ _); [discriminate|].
  destruct (_ <? _); discriminate.
Qed.

Lemma submits_app tr1 tr2 : submits (tr1 ++ tr2) = submits tr1 ++ submits tr2.
Proof. apply omap_app. Qed.
Lemma calls_app tr1 tr2 : calls (tr1 ++ tr2) = calls tr1 ++ calls tr2.
Proof. apply omap_app. Qed.
Lemma done_ids_app tr1 tr2 : done_ids (tr1 ++ tr2) = done_ids tr1 ++ done_ids tr2.
Proof. apply omap_app. Qed.
Lemma collected_app tr1 tr2 : collected (tr1 ++ tr2) = collected tr1 ++ collected tr2.
Proof. apply omap_app. Qed.
Lemma productions_app tr1 tr2 :
  productions (tr1 ++ tr2) = productions tr1 ++ productions tr2.
Proof. apply omap_app. Qed.

Lemma omap_produce {B} (f : @event T V → option B) c i (l : list V) :
  (∀ v, f (EvProduce c i v) = None) → omap f (EvProduce c i <$> l) = [].
Proof. intros Hf. induction l as [|v l IH]; simpl; [done|]. by rewrite Hf. Qed.

Lemma worker_events_silent w i (c : @call_result V E) :
  submits (worker_events (T:=T) w i c) = [] ∧ calls (worker_events (T:=T) w i c) = []
  ∧ done_ids (worker_events (T:=T) w i c) = [] ∧ collected (worker_events (T:=T) w i c) = [].
Proof.
  destruct c as [e|[l|g]]; simpl; try done.
  repeat split; by apply omap_produce.
Qed.

Lemma caller_events_silent i (c : @call_result V E) :
  submits (caller_events (T:=T) i c) = [] ∧ calls (caller_events (T:=T) i c) = []
  ∧ done_ids (caller_events (T:=T) i c) = [] ∧ collected (caller_events (T:=T) i c) = [].
Proof.
  destruct c as [e|[l|g]]; simpl; try done.
  repeat split; by apply omap_produce.
Qed.

Section WithFunc.
Variable func : T → @call_result V E.

Lemma worker_events_ok data w i d :
  data !! i = Some d → Forall (event_ok func data) (worker_events w i (func d)).
Proof.
  intros Hd. unfold worker_events.
  destruct (func d) as [e|[l|g]] eqn:Hf; try by constructor.
  apply Forall_forall. intros ev [v [-> _]]%list_elem_of_fmap. simpl. eauto.
Qed.

Lemma caller_events_ok data i d :
  data !! i = Some d → Forall (event_ok func data) (caller_events i (func d)).
Proof.
  intros Hd. unfold caller_events.
  destruct (func d) as [e|[l|g]] eqn:Hf; try by constructor.
  apply Forall_forall. intros ev [v [-> _]]%list_elem_of_fmap. simpl. eauto.
Qed.

Lemma pool_inv_init data : pool_inv func data (init data).
Proof.
  constructor; simpl; try done.
  - unfold max_workers. lia.
Qed.


Lemma outcome_elem i (fin : list (nat * @call_result V E)) c :
  outcome i fin = Some c → (i, c) ∈ fin.
Proof.
  induction fin as [|[j c'] fin IH]; simpl; [done|].
  destruct (Nat.eqb_spec i j) as [->|Hne].
  - intros [= ->]. left.
  - intros H. right. auto.
Qed.

Lemma outcome_func data s i c :
  pool_inv func data s → outcome i (finished s) = Some c →
  ∃ d, submitted s !! i = Some d ∧ c = func d.
Proof.
  intros Hp Hout. apply outcome_elem in Hout.
  pose proof (pool_finished _ _ _ Hp) as Hfin.
  rewrite Forall_forall in Hfin. exact (Hfin _ Hout).
Qed.

(** A step of the caller that leaves the pool alone. *)
Lemma pool_inv_caller data s m' r' evs :
  pool_inv func data s → rest_of m' = rest_of (main s) →
  submits evs = [] → calls evs = [] → done_ids evs = [] →
  Forall (event_ok func data) evs →
  pool_inv func data
    (State m' (submitted s) (queue s) (workers s) (finished s) r' (trace s ++ evs)).
Proof.
  intros [Hdata Hs Hc Hq Hids Hfin Hdone Hb Hsp Hev] Hm Hs0 Hc0 Hd0 Hok.
  constructor; simpl;
    rewrite ?submits_app, ?calls_app, ?done_ids_app, ?Hs0, ?Hc0, ?Hd0, ?app_nil_r;
    try done.
  - by rewrite Hm.
  - by apply Forall_app.
Qed.

Lemma exec_pool_inv data a s s' :
  pool_inv func data s → exec func a s = Some s' → pool_inv func data s'.
Proof.
  intros [Hdata [Hs1 Hs2] [Hc1 Hc2] [Hq1 Hq2] Hids Hfin Hdone Hb Hsp Hev] Hexec.
  destruct s as [m sub q ws fin res tr]; simpl in *.
  destruct a; simpl in Hexec.
  - (* Submit *)
    destruct m as [[|d rest]| | |]; try discriminate.
    injection Hexec as <-. simpl in *.
    constructor; simpl.
    + by rewrite <- app_assoc.
    + rewrite submits_app, !fmap_app, length_app, Hs1, Hs2. simpl.
      by rewrite Nat.add_1_r, seq_S.
    + rewrite calls_app. simpl. rewrite app_nil_r. split; [done|].
      rewrite take_app_le by lia. done.
    + rewrite calls_app. simpl. rewrite app_nil_r, !length_app. simpl.
      split; [lia|].
      rewrite Nat.add_1_r, seq_S, <- Hq2. repeat f_equal. lia.
    + rewrite calls_app. simpl. by rewrite app_nil_r, busy_ids_adjust.
    + eapply Forall_impl; [exact Hfin|].
      intros [i c] [d' [Hl ->]]. exists d'. split; [|done].
      by apply lookup_app_l_Some.
    + rewrite done_ids_app. simpl. by rewrite app_nil_r.
    + by apply adjust_length.
    + intros _. apply adjust_nonempty.
    + apply Forall_app. split; [done|]. by repeat constructor.
  - (* AsCompleted *)
    destruct m as [[|d rest]| | |]; try discriminate.
    injection Hexec as <-. by constructor.
  - (* Take *)
    destruct (ws !! w) as [[|j]|] eqn:Hw; try discriminate.
    destruct q as [|i q]; try discriminate.
    destruct (sub !! i) as [d|] eqn:Hd; try discriminate.
    injection Hexec as <-. simpl in *.
    injection Hq2 as -> Hq2.
    constructor; simpl.
    + done.
    + rewrite submits_app. simpl. by rewrite app_nil_r.
    + rewrite calls_app, !fmap_app, length_app. simpl.
      rewrite Nat.add_1_r, seq_S, Hc1. split; [done|].
      by rewrite Hc2, (take_S_r _ _ _ Hd).
    + rewrite calls_app, length_app. simpl. split; [lia|].
      rewrite Hq2 at 1. f_equal. lia.
    + rewrite calls_app, length_app. simpl.
      rewrite Nat.add_1_r, seq_S, busy_ids_take by done. simpl.
      rewrite <- Hids. apply Permutation_cons_append.
    + done.
    + rewrite done_ids_app. simpl. by rewrite app_nil_r.
    + by rewrite length_insert.
    + intros Hne Hnil. apply (f_equal length) in Hnil.
      rewrite length_insert in Hnil. destruct ws; [by apply Hsp|done].
    + apply Forall_app. split; [done|]. by repeat constructor.
  - (* Finish *)
    destruct (ws !! w) as [[|i]|] eqn:Hw; try discriminate.
    destruct (sub !! i) as [d|] eqn:Hd; try discriminate.
    injection Hexec as <-. simpl in *.
    destruct (worker_events_silent w i (func d)) as (Hw1 & Hw2 & Hw3 & Hw4).
    constructor; simpl.
    + done.
    + rewrite !submits_app, Hw1. simpl. by rewrite app_nil_r.
    + rewrite !calls_app, Hw2. simpl. by rewrite app_nil_r.
    + rewrite !calls_app, Hw2. simpl. by rewrite app_nil_r.
    + rewrite !calls_app, Hw2. simpl. rewrite app_nil_r, <- Hids, fmap_app. simpl.
      rewrite (busy_ids_finish ws w i Hw).
      rewrite app_assoc, <- Permutation_cons_append. done.
    + apply Forall_app. split; [done|]. repeat constructor. simpl. eauto.
    + rewrite !done_ids_app, Hw3, fmap_app. simpl. by rewrite Hdone.
    + by rewrite length_insert.
    + intros Hne Hnil. apply (f_equal length) in Hnil.
      rewrite length_insert in Hnil. destruct ws; [by apply Hsp|done].
    + rewrite !Forall_app. repeat split; [done| |by repeat constructor].
      apply worker_events_ok.
      destruct m; simpl in Hdata; subst data; try (by rewrite app_nil_r).
      by apply lookup_app_l_Some.
  - (* Collect *)
    destruct m as [|todo| |]; try discriminate.
    destruct (bool_decide (i ∈ todo)); try discriminate.
    destruct (outcome i fin) as [c|] eqn:Hout; try discriminate.
    simpl in Hexec, Hdata. rewrite app_nil_r in Hdata. subst sub.
    assert (Hp : pool_inv func data (State (Waiting todo) data q ws fin res tr)).
    { constructor; simpl; try done. by rewrite app_nil_r. }
    destruct (outcome_func _ _ _ _ Hp Hout) as (d & Hd & ->). simpl in Hd.
    destruct (caller_events_silent i (func d)) as (Hw1 & Hw2 & Hw3 & Hw4).
    assert (Hpool : ∀ m' r', rest_of m' = [] → pool_inv func data
              (State m' data q ws fin r' (tr ++ EvCollect i :: caller_events i (func d)))).
    { intros m' r' Hm'. apply (pool_inv_caller _ _ m' r' _ Hp); simpl; try done.
      constructor; [done|]. by apply caller_events_ok. }
    destruct (future_result (func d)) as [e|it].
    + injection Hexec as <-. by apply Hpool.
    + destruct (extend res it) as [r [e|]]; injection Hexec as <-; by apply Hpool.
  - (* EndLoop *)
    destruct m as [|[|]| |]; try discriminate.
    injection Hexec as <-. by constructor.
  - (* Exit *)
    destruct m as [| |exn|]; try discriminate.
    destruct q; try discriminate.
    destruct (busy_ids ws) eqn:Hbusy; try discriminate.
    injection Hexec as <-.
    assert (Hp : pool_inv func data (State (Leaving exn) sub [] ws fin res tr)).
    { constructor; simpl; try done. by rewrite Hbusy. }
    apply (pool_inv_caller data _ (Done _) res [EvShutdown] Hp); try done.
    by repeat constructor.
Qed.

Lemma extend_spec (r : list V) (it : @iterable V E) :
  extend r it = (r ++ items_of (CallReturns it), failure_of (CallReturns it)).
Proof. by destruct it. Qed.

Lemma future_result_raises (c : @call_result V E) e :
  future_result c = inl e → failure_of c = Some e.
Proof. destruct c; simpl; congruence. Qed.

Lemma future_result_returns (c : @call_result V E) it :
  future_result c = inr it → c = CallReturns it.
Proof. destruct c; simpl; congruence. Qed.

Lemma filter_ne_id (l : list nat) i : i ∉ l → filter (λ j, j ≠ i) l = l.
Proof.
  induction l as [|x l IH]; [done|]. intros Hi.
  apply not_elem_of_cons in Hi as [Hx Hl].
  rewrite filter_cons_True by congruence. by rewrite IH.
Qed.

Lemma filter_remove_perm (l : list nat) i :
  NoDup l → i ∈ l → l ≡ₚ i :: filter (λ j, j ≠ i) l.
Proof.
  induction 1 as [|x l Hx Hnd IH]; intros Hi; [by apply elem_of_nil in Hi|].
  apply elem_of_cons in Hi as [<-|Hi].
  - rewrite filter_cons_False by (intros H; by apply H).
    by rewrite filter_ne_id.
  - assert (x ≠ i) by (intros ->; done).
    rewrite filter_cons_True by done.
    rewrite (IH Hi) at 1. apply perm_swap.
Qed.

Lemma block_fails data i d :
  data !! i = Some d →
  block func data i = items_of (func d) ∧ fails func data i = failure_of (func d).
Proof. intros Hd. unfold block, fails. by rewrite Hd. Qed.

Lemma done_terminal data a s o :
  main s = Done o → main_inv func data s → exec func a s = None.
Proof.
  destruct s as [m sub q ws fin res tr]. simpl. intros -> Hm.
  assert (Hq : q = [] ∧ busy_ids ws = []).
  { unfold main_inv in Hm. simpl in Hm. destruct o; unfold quiescent in Hm; simpl in Hm; tauto. }
  destruct Hq as [-> Hbusy].
  destruct a; simpl; try done.
  - by destruct (ws !! w) as [[|]|].
  - destruct (ws !! w) as [[|i]|] eqn:Hw; try done.
    by apply busy_ids_nil_lookup with (w:=w) (i:=i) in Hbusy.
Qed.

Lemma exec_main_inv data a s s' :
  pool_inv func data s → main_inv func data s → exec func a s = Some s' →
  main_inv func data s'.
Proof.
  intros Hp Hm Hexec.
  destruct (main s) as [rest|todo|exn|o] eqn:Hmain; cycle 3.
  { by rewrite (done_terminal data a s o Hmain Hm) in Hexec. }
  all: destruct s as [m sub q ws fin res tr]; simpl in Hmain; subst m;
       unfold main_inv in *; simpl in Hm.
  - (* Submitting *)
    destruct a; simpl in Hexec; try discriminate.
    + destruct rest; try discriminate. injection Hexec as <-. simpl.
      rewrite collected_app. simpl. by rewrite app_nil_r.
    + destruct rest; try discriminate. injection Hexec as <-. simpl.
      destruct Hm as [-> ->]. pose proof (pool_data _ _ _ Hp) as Hd. simpl in Hd.
      rewrite app_nil_r in Hd. subst sub. rewrite app_nil_r. by repeat split.
    + destruct (ws !! w) as [[|j]|]; try discriminate.
      destruct q as [|i q]; try discriminate.
      destruct (sub !! i); try discriminate. injection Hexec as <-. simpl.
      rewrite collected_app. simpl. by rewrite app_nil_r.
    + destruct (ws !! w) as [[|i]|]; try discriminate.
      destruct (sub !! i) as [d|]; try discriminate. injection Hexec as <-. simpl.
      destruct (worker_events_silent w i (func d)) as (_ & _ & _ & Hw4).
      rewrite !collected_app, Hw4. simpl. by rewrite app_nil_r.
  - (* Waiting *)
    destruct Hm as (Hperm & Hres & Hok).
    destruct a; simpl in Hexec; try discriminate.
    + destruct (ws !! w) as [[|j]|]; try discriminate.
      destruct q as [|i q]; try discriminate.
      destruct (sub !! i); try discriminate. injection Hexec as <-. simpl.
      rewrite collected_app. simpl. by rewrite app_nil_r.
    + destruct (ws !! w) as [[|i]|]; try discriminate.
      destruct (sub !! i) as [d|]; try discriminate. injection Hexec as <-. simpl.
      destruct (worker_events_silent w i (func d)) as (_ & _ & _ & Hw4).
      rewrite !collected_app, Hw4. simpl. by rewrite app_nil_r.
    + destruct (bool_decide_reflect (i ∈ todo)) as [Hi|]; try discriminate.
      destruct (outcome i fin) as [c|] eqn:Hout; try discriminate.
      destruct (outcome_func _ _ _ _ Hp Hout) as (d & Hd & ->). simpl in Hd, Hexec.
      pose proof (pool_data _ _ _ Hp) as Hdata. simpl in Hdata.
      rewrite app_nil_r in Hdata. subst sub.
      destruct (block_fails data i d Hd) as [Hblock Hfails].
      destruct (caller_events_silent i (func d)) as (_ & _ & _ & Hw4).
      destruct (future_result (func d)) as [e|it] eqn:Hfr.
      * injection Hexec as <-. simpl. exists i.
        rewrite Hfails. by apply future_result_raises.
      * apply future_result_returns in Hfr.
        rewrite extend_spec, <- Hfr in Hexec.
        destruct (failure_of (func d)) as [e|] eqn:Hfail; injection Hexec as <-; simpl.
        { exists i. congruence. }
        rewrite collected_app. simpl. rewrite Hw4.
        repeat split.
        -- rewrite <- Hperm.
           assert (Hnd : NoDup todo).
           { assert (Hnd : NoDup (todo ++ collected tr))
               by (rewrite Hperm; apply NoDup_seq).
             by apply NoDup_app in Hnd as (Hnd & _ & _). }
           rewrite (filter_remove_perm todo i Hnd Hi) at 2.
           rewrite app_assoc, <- Permutation_cons_append. done.
        -- rewrite flat_map_app. simpl. by rewrite app_nil_r, Hblock, Hres.
        -- apply Forall_app. split; [done|]. repeat constructor. congruence.
    + destruct todo; try discriminate. injection Hexec as <-. simpl.
      unfold all_collected. simpl. by repeat split.
  - (* Leaving *)
    destruct a; simpl in Hexec; try discriminate.
    + destruct (ws !! w) as [[|j]|]; try discriminate.
      destruct q as [|i q]; try discriminate.
      destruct (sub !! i); try discriminate. injection Hexec as <-. simpl.
      destruct exn; [done|]. unfold all_collected in *. simpl in *.
      rewrite collected_app. simpl. by rewrite app_nil_r.
    + destruct (ws !! w) as [[|i]|]; try discriminate.
      destruct (sub !! i) as [d|]; try discriminate. injection Hexec as <-. simpl.
      destruct (worker_events_silent w i (func d)) as (_ & _ & _ & Hw4).
      destruct exn; [done|]. unfold all_collected in *. simpl in *.
      rewrite !collected_app, Hw4. simpl. by rewrite app_nil_r.
    + destruct q; try discriminate.
      destruct (busy_ids ws) eqn:Hbusy; try discriminate.
      injection Hexec as <-. simpl.
      destruct exn as [e|].
      * repeat split; eauto.
      * unfold all_collected, quiescent in *. simpl in *.
        rewrite collected_app. simpl. rewrite app_nil_r. repeat split; eauto; tauto.
Qed.

Lemma main_inv_init data : main_inv func data (init data).
Proof. by split. Qed.

Lemma exec_inv data a s s' :
  inv func data s → exec func a s = Some s' → inv func data s'.
Proof.
  intros [Hp Hm] Hexec. split.
  - eapply exec_pool_inv; eauto.
  - eapply exec_main_inv; eauto.
Qed.

Lemma run_inv_from data sched s s' :
  inv func data s → steps func sched s = Some s' → inv func data s'.
Proof.
  revert s. induction sched as [|a sched IH]; simpl; intros s Hinv Hrun.
  - by injection Hrun as <-.
  - destruct (exec func a s) as [s1|] eqn:Hexec; [|done].
    simpl in Hrun. eapply IH; [|exact Hrun]. eapply exec_inv; eauto.
Qed.

Lemma run_inv data sched s :
  steps func sched (init data) = Some s → inv func data s.
Proof.
  apply run_inv_from. split; [apply pool_inv_init|apply main_inv_init].
Qed.

(** *** Every step makes progress towards completion *)

Lemma exec_measure a s s' : exec func a s = Some s' → measure s' < measure s.
Proof.
  destruct s as [m sub q ws fin res tr]. unfold measure, main_measure, in_flight.
  destruct a; simpl; intros Hexec.
  - destruct m as [[|d rest]| | |]; try discriminate.
    injection Hexec as <-. simpl. rewrite busy_ids_adjust, !length_app. simpl. lia.
  - destruct m as [[|d rest]| | |]; try discriminate.
    injection Hexec as <-. simpl. rewrite length_seq. lia.
  - destruct (ws !! w) as [[|j]|] eqn:Hw; try discriminate.
    destruct q as [|i q]; try discriminate.
    destruct (sub !! i); try discriminate. injection Hexec as <-. simpl.
    rewrite (Permutation_length (busy_ids_take ws w i Hw)). simpl. lia.
  - destruct (ws !! w) as [[|i]|] eqn:Hw; try discriminate.
    destruct (sub !! i); try discriminate. injection Hexec as <-. simpl.
    rewrite (Permutation_length (busy_ids_finish ws w i Hw)). simpl. lia.
  - destruct m as [|todo| |]; try discriminate.
    destruct (bool_decide_reflect (i ∈ todo)) as [Hi|]; try discriminate.
    destruct (outcome i fin) as [c|]; try discriminate. simpl in Hexec.
    destruct (future_result c) as [e|it].
    + injection Hexec as <-. simpl. lia.
    + destruct (extend res it) as [r [e|]]; injection Hexec as <-; simpl; [lia|].
      assert (length (filter (λ j, j ≠ i) todo) < length todo); [|lia].
      apply (length_filter_lt _ _ i); [done|]. intros H. by apply H.
  - destruct m as [|[|]| |]; try discriminate. injection Hexec as <-. simpl. lia.
  - destruct m as [| |exn|]; try discriminate.
    destruct q; try discriminate.
    destruct (busy_ids ws) eqn:Hbusy; try discriminate.
    injection Hexec as <-. simpl. rewrite Hbusy. simpl. lia.
Qed.


Lemma first_busy_Some ws w : first_busy ws = Some w → ∃ i, ws !! w = Some (Busy i).
Proof.
  revert w. induction ws as [|[|i] ws IH]; intros w; simpl; try done.
  - destruct (first_busy ws) as [w'|]; [|done]. intros [= <-]. by apply IH.
  - intros [= <-]. by exists i.
Qed.

Lemma first_busy_None ws : first_busy ws = None → Forall (λ w, w = Idle) ws.
Proof.
  induction ws as [|[|i] ws IH]; simpl; try done.
  destruct (first_busy ws); [done|]. intros _. constructor; auto.
Qed.

Lemma all_idle_busy_ids ws : Forall (λ w, w = Idle) ws → busy_ids ws = [].
Proof. induction 1 as [|w ws -> _ IH]; [done|]. exact IH. Qed.

Lemma busy_lookup_elem ws w i : ws !! w = Some (Busy i) → i ∈ busy_ids ws.
Proof. intros Hw. rewrite (busy_ids_finish ws w i Hw). left. Qed.

Lemma pool_busy_submitted data s i :
  pool_inv func data s → i ∈ busy_ids (workers s) → is_Some (submitted s !! i).
Proof.
  intros Hp Hi. apply lookup_lt_is_Some.
  assert (Hin : i ∈ seq 0 (length (calls (trace s)))).
  { rewrite <- (pool_ids _ _ _ Hp). apply elem_of_app. by left. }
  apply elem_of_seq in Hin. pose proof (pool_queue _ _ _ Hp) as [Hq _]. lia.
Qed.

Lemma pool_action_enabled data s :
  pool_inv func data s → queue s ≠ [] ∨ busy_ids (workers s) ≠ [] →
  is_Some (exec func (pool_action s) s).
Proof.
  intros Hp Hwork. unfold pool_action.
  destruct (first_busy (workers s)) as [w|] eqn:Hfb.
  - apply first_busy_Some in Hfb as [i Hw].
    destruct (pool_busy_submitted data s i Hp (busy_lookup_elem _ _ _ Hw)) as [d Hd].
    unfold exec. rewrite Hw. simpl. rewrite Hd. simpl. eauto.
  - apply first_busy_None in Hfb.
    destruct Hwork as [Hq|Hb]; [|by apply all_idle_busy_ids in Hfb].
    destruct (pool_queue _ _ _ Hp) as [Hq1 Hq2].
    destruct (queue s) as [|i q] eqn:Hqueue; [done|]. simpl in *.
    injection Hq2 as -> _.
    assert (Hsub : submitted s ≠ []) by (intros Hnil; rewrite Hnil in Hq1; simpl in Hq1; lia).
    pose proof (pool_spawn _ _ _ Hp Hsub) as Hws.
    destruct (workers s) as [|w0 ws] eqn:Hworkers; [done|].
    apply Forall_cons in Hfb as [-> _].
    destruct (lookup_lt_is_Some_2 (submitted s) (length (calls (trace s)))) as [d Hd]; [lia|].
    unfold exec. rewrite ?Hworkers, ?Hqueue. simpl. rewrite Hd. simpl. eauto.
Qed.

Lemma outcome_None i (fin : list (nat * @call_result V E)) :
  outcome i fin = None → i ∉ fin.*1.
Proof.
  induction fin as [|[j c] fin IH]; simpl; [intros _; apply not_elem_of_nil|].
  destruct (Nat.eqb_spec i j); [done|]. intros H. apply not_elem_of_cons. auto.
Qed.

Lemma pick_enabled data s :
  inv func data s → (∀ o, main s ≠ Done o) → is_Some (exec func (pick s) s).
Proof.
  intros [Hp Hm] Hnd. unfold pick.
  destruct (main s) as [[|d rest]|[|i todo]|exn|o] eqn:Hmain.
  - unfold exec. rewrite Hmain. eauto.
  - unfold exec. rewrite Hmain. eauto.
  - unfold exec. rewrite Hmain. eauto.
  - destruct (outcome i (finished s)) as [c|] eqn:Hout.
    + unfold exec. rewrite Hmain.
      rewrite bool_decide_eq_true_2 by left. rewrite Hout. simpl.
      destruct (future_result c) as [e|it]; [eauto|].
      destruct (extend (result s) it) as [r [e|]]; eauto.
    + apply (pool_action_enabled data s Hp).
      unfold main_inv in Hm. rewrite Hmain in Hm. destruct Hm as (Hperm & _).
      assert (Hi : i ∈ seq 0 (length data)) by (rewrite <- Hperm; left).
      apply outcome_None in Hout.
      pose proof (pool_data _ _ _ Hp) as Hdata. rewrite Hmain in Hdata. simpl in Hdata.
      rewrite app_nil_r in Hdata.
      destruct (pool_queue _ _ _ Hp) as [Hq1 Hq2].
      pose proof (pool_ids _ _ _ Hp) as Hids.
      apply elem_of_seq in Hi. rewrite <- Hdata, <- Hq1 in Hi.
      destruct (decide (i < length (calls (trace s)))) as [Hlt|Hge].
      * right. intros Hnil. rewrite Hnil in Hids. simpl in Hids.
        apply Hout. rewrite Hids. apply elem_of_seq. lia.
      * left. intros Hnil. rewrite Hnil in Hi. simpl in Hi. lia.
  - destruct (queue s) as [|j q] eqn:Hq.
    + destruct (busy_ids (workers s)) as [|j l] eqn:Hb.
      * unfold exec. rewrite Hmain, Hq, Hb. eauto.
      * apply (pool_action_enabled data s Hp). right. by rewrite Hb.
    + apply (pool_action_enabled data s Hp). left. by rewrite Hq.
  - by destruct (Hnd o).
Qed.

Lemma measure_zero_done data s :
  inv func data s → measure s = 0 → ∃ o, main s = Done o.
Proof.
  intros _. unfold measure, main_measure.
  destruct (main s); try lia. eauto.
Qed.

Lemma default_schedule_completes data n s :
  inv func data s → measure s ≤ n →
  ∃ s' o, steps func (default_schedule func n s) s = Some s' ∧ main s' = Done o.
Proof.
  revert s. induction n as [|n IH]; intros s Hinv Hle.
  - destruct (measure_zero_done data s Hinv) as [o Ho]; [lia|]. simpl. eauto.
  - simpl. destruct (main s) as [rest|todo|exn|o] eqn:Hmain.
    4: { exists s, o. by rewrite Hmain. }
    all: destruct (pick_enabled data s Hinv) as [s1 Hs1];
           [intros o; by rewrite Hmain|].
    all: rewrite Hs1; simpl; rewrite Hs1; simpl.
    all: apply IH; [by eapply exec_inv|apply exec_measure in Hs1; lia].
Qed.

(** *** Driving the pool and the collection loop by hand *)

Lemma steps_cons a sched s :
  steps func (a :: sched) s = exec func a s ≫= steps func sched.
Proof. done. Qed.

Lemma steps_app sched1 sched2 s :
  steps func (sched1 ++ sched2) s = steps func sched1 s ≫= steps func sched2.
Proof.
  revert s. induction sched1 as [|a sched1 IH]; intros s; simpl; [done|].
  destruct (exec func a s); simpl; [apply IH|done].
Qed.

Lemma steps_app_Some sched1 sched2 s s1 s2 :
  steps func sched1 s = Some s1 → steps func sched2 s1 = Some s2 →
  steps func (sched1 ++ sched2) s = Some s2.
Proof. intros H1 H2. by rewrite steps_app, H1. Qed.

Lemma pool_action_frame s s' :
  exec func (pool_action s) s = Some s' →
  main s' = main s ∧ result s' = result s
  ∧ collected (trace s') = collected (trace s).
Proof.
  destruct s as [m sub q ws fin res tr]. unfold pool_action. simpl.
  destruct (first_busy ws) as [w|]; simpl.
  - destruct (ws !! w) as [[|i]|]; try done.
    destruct (sub !! i) as [d|]; try done. intros [= <-]. simpl.
    destruct (worker_events_silent w i (func d)) as (_ & _ & _ & Hw4).
    rewrite !collected_app, Hw4. simpl. by rewrite app_nil_r.
  - destruct (ws !! 0) as [[|i]|]; try done.
    destruct q as [|i q]; try done.
    destruct (sub !! i) as [d|]; try done. intros [= <-]. simpl.
    rewrite !collected_app. simpl. by rewrite app_nil_r.
Qed.

(** The workers can always finish what has been submitted. *)
Lemma drain_pool data n s :
  inv func data s → measure s ≤ n →
  ∃ sched s', steps func sched s = Some s' ∧ quiescent s'
    ∧ main s' = main s ∧ result s' = result s
    ∧ collected (trace s') = collected (trace s).
Proof.
  revert s. induction n as [|n IH]; intros s Hinv Hle.
  - exists [], s. repeat split; try done.
    + unfold measure in Hle. destruct (queue s); [done|simpl in Hle; lia].
    + unfold measure, in_flight in Hle.
      destruct (busy_ids (workers s)); [done|simpl in Hle; lia].
  - destruct (queue s) as [|j q] eqn:Hq.
    { destruct (busy_ids (workers s)) as [|j l] eqn:Hb.
      { exists [], s. by repeat split. }
      destruct (pool_action_enabled data s (proj1 Hinv)) as [s1 Hs1];
        [right; by rewrite Hb|].
      destruct (pool_action_frame _ _ Hs1) as (Hm1 & Hr1 & Hc1).
      destruct (IH s1) as (sched & s' & Hrun & Hquiet & Hm & Hr & Hc);
        [by eapply exec_inv|apply exec_measure in Hs1; lia|].
      exists (pool_action s :: sched), s'. simpl. rewrite Hs1. simpl.
      split; [done|]. split; [done|]. repeat split; congruence. }
    destruct (pool_action_enabled data s (proj1 Hinv)) as [s1 Hs1];
      [left; by rewrite Hq|].
    destruct (pool_action_frame _ _ Hs1) as (Hm1 & Hr1 & Hc1).
    destruct (IH s1) as (sched & s' & Hrun & Hquiet & Hm & Hr & Hc);
      [by eapply exec_inv|apply exec_measure in Hs1; lia|].
    exists (pool_action s :: sched), s'. simpl. rewrite Hs1. simpl.
    split; [done|]. split; [done|]. repeat split; congruence.
Qed.

Lemma submit_all data s rest :
  inv func data s → main s = Submitting rest →
  ∃ sched s', steps func sched s = Some s'
    ∧ main s' = Waiting (seq 0 (length data)) ∧ result s' = []
    ∧ collected (trace s') = [].
Proof.
  revert s. induction rest as [|d rest IH]; intros s Hinv Hmain.
  - exists [AsCompleted]. simpl. unfold exec. rewrite Hmain. simpl.
    eexists. split; [done|]. simpl.
    destruct Hinv as [Hp Hm]. unfold main_inv in Hm. rewrite Hmain in Hm.
    pose proof (pool_data _ _ _ Hp) as Hd. rewrite Hmain in Hd. simpl in Hd.
    rewrite app_nil_r in Hd. rewrite Hd. by destruct Hm.
  - destruct (exec func Submit s) as [s1|] eqn:Hs1;
      [|unfold exec in Hs1; by rewrite Hmain in Hs1].
    destruct (IH s1) as (sched & s' & Hrun & H);
      [by eapply exec_inv|unfold exec in Hs1; rewrite Hmain in Hs1; by injection Hs1 as <-|].
    exists (Submit :: sched), s'. by rewrite steps_cons, Hs1.
Qed.

Lemma elem_fst_outcome i (fin : list (nat * @call_result V E)) :
  i ∈ fin.*1 → is_Some (outcome i fin).
Proof.
  induction fin as [|[j c] fin IH]; simpl; [by intros ?%elem_of_nil|].
  destruct (Nat.eqb_spec i j); [eauto|].
  intros [?|?]%elem_of_cons; [done|auto].
Qed.

(** Once the pool is quiescent every submitted task has its outcome. *)
Lemma quiescent_outcome data s i d :
  pool_inv func data s → quiescent s → rest_of (main s) = [] →
  data !! i = Some d → outcome i (finished s) = Some (func d).
Proof.
  intros Hp [Hq Hb] Hrest Hd.
  pose proof (pool_data _ _ _ Hp) as Hdata. rewrite Hrest, app_nil_r in Hdata.
  destruct (pool_queue _ _ _ Hp) as [Hq1 _]. rewrite Hq in Hq1. simpl in Hq1.
  pose proof (pool_ids _ _ _ Hp) as Hids. rewrite Hb in Hids. simpl in Hids.
  destruct (elem_fst_outcome i (finished s)) as [c Hc].
  { rewrite Hids. apply elem_of_seq. apply lookup_lt_Some in Hd.
    rewrite <- Hdata in Hd. lia. }
  destruct (outcome_func data s i c Hp Hc) as (d' & Hd' & ->).
  rewrite Hdata in Hd'. congruence.
Qed.

Lemma collect_in_order data order : ∀ s todo,
  inv func data s → main s = Waiting todo → quiescent s → order ≡ₚ todo →
  Forall (λ i, fails func data i = None) order →
  ∃ s', steps func (Collect <$> order) s = Some s' ∧ main s' = Waiting []
    ∧ quiescent s' ∧ result s' = result s ++ flat_map (block func data) order.
Proof.
  induction order as [|i order IH]; intros s todo Hinv Hmain Hquiet Hperm Hok.
  - apply Permutation_nil in Hperm. subst todo.
    exists s. simpl. by rewrite app_nil_r.
  - apply Forall_cons in Hok as [Hi Hok].
    destruct Hinv as [Hp Hm].
    assert (Hin : i ∈ todo) by (rewrite <- Hperm; left).
    assert (Hlt : i ∈ seq 0 (length data)).
    { unfold main_inv in Hm. rewrite Hmain in Hm. destruct Hm as (Hm & _).
      rewrite <- Hm. apply elem_of_app. by left. }
    apply elem_of_seq in Hlt.
    destruct (lookup_lt_is_Some_2 data i) as [d Hd]; [lia|].
    assert (Hout : outcome i (finished s) = Some (func d)).
    { apply (quiescent_outcome data); try done. by rewrite Hmain. }
    destruct (block_fails data i d Hd) as [Hblock Hfails].
    rewrite Hfails in Hi.
    assert (Hnd : NoDup todo).
    { unfold main_inv in Hm. rewrite Hmain in Hm. destruct Hm as (Hm & _).
      assert (Hnd : NoDup (todo ++ collected (trace s)))
        by (rewrite Hm; apply NoDup_seq).
      by apply NoDup_app in Hnd as (Hnd & _ & _). }
    destruct (exec func (Collect i) s) as [s1|] eqn:Hs1; cycle 1.
    { unfold exec in Hs1. rewrite Hmain, bool_decide_eq_true_2, Hout in Hs1 by done.
      simpl in Hs1. destruct (future_result (func d)) as [e|it]; [done|].
      by destruct (extend (result s) it) as [r [e|]]. }
    assert (Hs1' : main s1 = Waiting (filter (λ j, j ≠ i) todo)
                   ∧ result s1 = result s ++ items_of (func d)
                   ∧ queue s1 = queue s ∧ workers s1 = workers s).
    { unfold exec in Hs1. rewrite Hmain, bool_decide_eq_true_2, Hout in Hs1 by done.
      simpl in Hs1. destruct (future_result (func d)) as [e|it] eqn:Hfr.
      - apply future_result_raises in Hfr. congruence.
      - apply future_result_returns in Hfr.
        rewrite extend_spec, <- Hfr, Hi in Hs1. by injection Hs1 as <-. }
    destruct Hs1' as (Hm1 & Hr1 & Hq1 & Hw1).
    destruct (IH s1 (filter (λ j, j ≠ i) todo)) as (s' & Hrun & Hm' & Hq' & Hr');
      try done.
    + eapply exec_inv; [|exact Hs1]. by split.
    + destruct Hquiet. split; congruence.
    + rewrite (filter_remove_perm todo i Hnd Hin) in Hperm.
      by apply Permutation_cons_inv in Hperm.
    + exists s'. rewrite fmap_cons, steps_cons, Hs1. simpl.
      split; [done|]. split; [done|]. split; [done|].
      rewrite Hr', Hr1, Hblock. by rewrite <- app_assoc.
Qed.

(** *** What a completed call looks like *)

Lemma flat_map_fmap {A B C} (f : B → list C) (g : A → B) (l : list A) :
  flat_map f (g <$> l) = flat_map (λ a, f (g a)) l.
Proof. induction l as [|a l IH]; [done|]. rewrite fmap_cons. simpl. by rewrite IH. Qed.

Lemma zip_seq_take_drop {A} (l : list A) j k :
  k ≤ length l →
  zip (seq j (length l)) l
  = zip (seq j k) (take k l) ++ zip (seq (j + k) (length l - k)) (drop k l).
Proof.
  intros Hk.
  trans (zip (seq j (k + (length l - k))) (take k l ++ drop k l)).
  { rewrite take_drop. do 2 f_equal. lia. }
  rewrite seq_app, zip_with_app; [done|].
  rewrite length_seq, length_take. lia.
Qed.

Lemma flat_map_blocks data :
  flat_map (block func data) (seq 0 (length data))
  = flat_map (λ d, items_of (func d)) data.
Proof.
  induction data as [|d data IH]; [done|].
  cbn [length seq flat_map]. rewrite <- IH, <- fmap_S_seq, flat_map_fmap. done.
Qed.

Lemma parallel_steps data sched o :
  _parallel func data sched = Some o →
  ∃ s, steps func sched (init data) = Some s ∧ main s = Done o.
Proof.
  unfold _parallel, completed. destruct (steps func sched (init data)) as [s|]; [|done].
  simpl. destruct (main s) eqn:Hmain; try done. intros [= ->]. eauto.
Qed.

Lemma steps_parallel data sched s o :
  steps func sched (init data) = Some s → main s = Done o →
  _parallel func data sched = Some o.
Proof. intros Hs Hm. unfold _parallel, completed. rewrite Hs. simpl. by rewrite Hm. Qed.

(** A returned list is the blocks of all tasks, in collection order. *)
Lemma return_blocks data sched r :
  _parallel func data sched = Some (Return r) →
  ∃ order, order ≡ₚ seq 0 (length data)
    ∧ r = flat_map (block func data) order
    ∧ Forall (λ i, fails func data i = None) order.
Proof.
  intros (s & Hs & Hmain)%parallel_steps.
  destruct (run_inv data sched s Hs) as [_ Hm].
  unfold main_inv in Hm. rewrite Hmain in Hm.
  destruct Hm as (-> & (Hperm & Hres & Hok) & _).
  exists (collected (trace s)). done.
Qed.

(** A raised exception is the failure of one of the identifiers. *)
Lemma raise_fails data sched e :
  _parallel func data sched = Some (Raise e) →
  ∃ i d, data !! i = Some d ∧ failure_of (func d) = Some e.
Proof.
  intros (s & Hs & Hmain)%parallel_steps.
  destruct (run_inv data sched s Hs) as [_ Hm].
  unfold main_inv in Hm. rewrite Hmain in Hm.
  destruct Hm as ((i & Hi) & _). unfold fails in Hi.
  destruct (data !! i) as [d|] eqn:Hd; [|done]. eauto.
Qed.

Lemma return_all_succeed data sched r :
  _parallel func data sched = Some (Return r) →
  Forall (λ d, failure_of (func d) = None) data.
Proof.
  intros (order & Hperm & _ & Hok)%return_blocks.
  apply Forall_lookup. intros i d Hd.
  rewrite Forall_forall in Hok.
  assert (Hi : i ∈ order).
  { rewrite Hperm. apply elem_of_seq. apply lookup_lt_Some in Hd. lia. }
  specialize (Hok i Hi). unfold fails in Hok. by rewrite Hd in Hok.
Qed.

(** Every call has a complete schedule, and no schedule is longer than
    [4 * length data + 3] actions. *)
Lemma parallel_completes data :
  ∃ o, _parallel func data
         (default_schedule func (4 * length data + 3) (init data)) = Some o.
Proof.
  destruct (default_schedule_completes data (4 * length data + 3) (init data))
    as (s & o & Hs & Hmain).
  - split; [apply pool_inv_init|apply main_inv_init].
  - unfold measure, main_measure, in_flight. simpl. lia.
  - exists o. by eapply steps_parallel.
Qed.



Lemma all_succeed_returns data sched o :
  Forall (λ d, failure_of (func d) = None) data →
  _parallel func data sched = Some o → ∃ r, o = Return r.
Proof.
  intros Hok Hpar. destruct o as [r|e]; [eauto|].
  apply raise_fails in Hpar as (i & d & Hd & He).
  rewrite Forall_lookup in Hok. rewrite (Hok i d Hd) in He. done.
Qed.

Lemma returned_items data sched r :
  _parallel func data sched = Some (Return r) →
  r ≡ₚ flat_map (λ d, items_of (func d)) data.
Proof.
  intros (order & Hperm & -> & _)%return_blocks.
  rewrite <- flat_map_blocks. by apply Permutation_flat_map.
Qed.

(** ** The claims about [_parallel] *)

(** C1.  When the mapping function produces its items for every
    identifier, [_parallel] returns, and whatever schedule the pool
    follows, the list returned holds exactly the items the mapping
    function produces over all identifiers: it is a permutation of their
    concatenation, and its length is the sum of the per-identifier
    counts. *)
Theorem parallel_returns_every_item data :
  Forall (λ d, failure_of (func d) = None) data →
  (∃ sched r, _parallel func data sched = Some (Return r))
  ∧ ∀ sched o, _parallel func data sched = Some o →
      ∃ r, o = Return r
        ∧ r ≡ₚ flat_map (λ d, items_of (func d)) data
        ∧ length r = list_sum (map (λ d, length (items_of (func d))) data).
Proof.
  intros Hok. split.
  - destruct (parallel_completes data) as [o Ho].
    destruct (all_succeed_returns data _ o Hok Ho) as [r ->]. eauto.
  - intros sched o Ho.
    destruct (all_succeed_returns data _ o Hok Ho) as [r ->].
    exists r. split; [done|].
    pose proof (returned_items data sched r Ho) as Hr.
    split; [done|].
    rewrite (Permutation_length Hr). apply length_flat_map.
Qed.

(** C2.  When the mapping function fails for exactly one identifier,
    [_parallel] completes, and under every schedule it raises that
    identifier's exception: no list, partial or otherwise, is returned. *)
Theorem parallel_surfaces_failure data i d e :
  data !! i = Some d → failure_of (func d) = Some e →
  (∀ j d', j ≠ i → data !! j = Some d' → failure_of (func d') = None) →
  (∃ sched, _parallel func data sched = Some (Raise e))
  ∧ ∀ sched o, _parallel func data sched = Some o → o = Raise e.
Proof.
  intros Hd He Hothers.
  assert (Hall : ∀ sched o, _parallel func data sched = Some o → o = Raise e).
  { intros sched [r|e'] Ho.
    - apply return_all_succeed in Ho. rewrite Forall_lookup in Ho.
      rewrite (Ho i d Hd) in He. done.
    - apply raise_fails in Ho as (j & d' & Hd' & He').
      destruct (decide (j = i)) as [->|Hne]; [congruence|].
      rewrite (Hothers j d' Hne Hd') in He'. done. }
  split; [|done].
  destruct (parallel_completes data) as [o Ho].
  rewrite (Hall _ o Ho) in Ho. eauto.
Qed.

(** C4.  A returned list is the concatenation of the identifiers'
    blocks, each block whole and in the order the mapping function
    yielded it, the blocks themselves in some permutation of the
    identifiers; and when every identifier succeeds each such
    permutation is the result of some schedule. *)
Theorem parallel_blocks_in_some_order data :
  (∀ sched r, _parallel func data sched = Some (Return r) →
     ∃ order, order ≡ₚ seq 0 (length data)
       ∧ r = flat_map (block func data) order)
  ∧ (Forall (λ d, failure_of (func d) = None) data →
     ∀ order, order ≡ₚ seq 0 (length data) →
       ∃ sched, _parallel func data sched
                = Some (Return (flat_map (block func data) order))).
Proof.
  split.
  - intros sched r (order & Hperm & Hr & _)%return_blocks. eauto.
  - intros Hok order Hperm.
    destruct (submit_all data (init data) data) as (sched1 & s1 & Hs1 & Hm1 & Hr1 & Hc1);
      [split; [apply pool_inv_init|apply main_inv_init]|done|].
    pose proof (run_inv data _ _ Hs1) as Hinv1.
    destruct (drain_pool data (measure s1) s1 Hinv1)
      as (sched2 & s2 & Hs2 & Hq2 & Hm2 & Hr2 & Hc2); [done|].
    pose proof (run_inv_from data _ _ _ Hinv1 Hs2) as Hinv2.
    destruct (collect_in_order data order s2 (seq 0 (length data)))
      as (s3 & Hs3 & Hm3 & [Hq3 Hb3] & Hr3); try done; [congruence| |].
    { apply Forall_forall. intros j Hj. rewrite Hperm in Hj.
      apply elem_of_seq in Hj. unfold fails.
      destruct (lookup_lt_is_Some_2 data j) as [d Hd]; [lia|].
      rewrite Hd. simpl. rewrite Forall_lookup in Hok. by apply (Hok j). }
    exists (sched1 ++ sched2 ++ (Collect <$> order) ++ [EndLoop; Exit]).
    destruct s3 as [m3 sub3 q3 ws3 fin3 res3 tr3]. simpl in *. subst m3 q3.
    eapply steps_parallel.
    + eapply steps_app_Some; [exact Hs1|].
      eapply steps_app_Some; [exact Hs2|].
      eapply steps_app_Some; [exact Hs3|].
      simpl. rewrite Hb3. simpl. reflexivity.
    + simpl. rewrite Hr3, Hr2, Hr1. done.
Qed.

(** C5.  At every point of every run at most [max_workers] = 12 calls
    of the mapping function are executing, however many identifiers
    were given: the calls started so far exceed the calls completed by
    the number of busy workers, which never exceeds 12. *)
Theorem parallel_bounded_concurrency data sched s :
  steps func sched (init data) = Some s →
  length (calls (trace s)) = length (done_ids (trace s)) + in_flight s
  ∧ in_flight s ≤ max_workers ∧ max_workers = 12.
Proof.
  intros [Hp _]%run_inv. unfold in_flight.
  pose proof (Permutation_length (pool_ids _ _ _ Hp)) as Hlen.
  rewrite length_app, length_fmap, length_seq in Hlen.
  rewrite (pool_done _ _ _ Hp), length_fmap.
  split; [lia|]. split; [|done].
  etrans; [apply busy_ids_length|apply (pool_bound _ _ _ Hp)].
Qed.

(** C6.  The identifiers are walked once, front to back: at every
    point the tasks submitted are a prefix of the identifiers numbered
    in order, the calls of the mapping function are a prefix of the
    submitted tasks, and when [_parallel] completes both are the whole
    collection, one task and one call per element, duplicates
    included. *)
Theorem parallel_one_call_per_element data sched s :
  steps func sched (init data) = Some s →
  submits (trace s) `prefix_of` zip (seq 0 (length data)) data
  ∧ calls (trace s) `prefix_of` submits (trace s)
  ∧ ∀ o, main s = Done o →
      submits (trace s) = zip (seq 0 (length data)) data
      ∧ calls (trace s) = zip (seq 0 (length data)) data.
Proof.
  intros Hs. pose proof (run_inv data sched s Hs) as [Hp Hm].
  destruct (pool_submits _ _ _ Hp) as [Hs1 Hs2].
  destruct (pool_calls _ _ _ Hp) as [Hc1 Hc2].
  destruct (pool_queue _ _ _ Hp) as [Hq1 Hq2].
  pose proof (pool_data _ _ _ Hp) as Hdata.
  rewrite <- (zip_fst_snd (submits (trace s))), <- (zip_fst_snd (calls (trace s))).
  rewrite Hs1, Hs2, Hc1, Hc2.
  set (k := length (calls (trace s))) in *.
  set (sub := submitted s) in *.
  split; [|split].
  - rewrite <- Hdata, length_app.
    exists (zip (seq (length sub) (length (rest_of (main s)))) (rest_of (main s))).
    rewrite seq_app, zip_with_app by (by rewrite length_seq). done.
  - exists (zip (seq k (length sub - k)) (drop k sub)).
    apply (zip_seq_take_drop sub 0 k). lia.
  - intros o Hmain.
    unfold main_inv in Hm. rewrite Hmain in Hm.
    assert (Hq : queue s = []) by (destruct o; unfold quiescent in Hm; tauto).
    rewrite Hmain in Hdata. simpl in Hdata. rewrite app_nil_r in Hdata.
    rewrite Hq in Hq1. simpl in Hq1.
    replace k with (length sub) by lia.
    rewrite firstn_all. by rewrite Hdata.
Qed.

(** C7.  [_parallel] returns or raises only once every submitted task
    has finished: in a completed state every identifier's future holds
    the outcome of its call, nothing is queued or executing, and all
    completions precede the executor's shutdown, the last event. *)
Theorem parallel_waits_for_all_tasks data sched s o :
  steps func sched (init data) = Some s → main s = Done o →
  (∀ i d, data !! i = Some d → outcome i (finished s) = Some (func d))
  ∧ queue s = [] ∧ in_flight s = 0
  ∧ ∃ tr, trace s = tr ++ [EvShutdown]
      ∧ done_ids tr ≡ₚ seq 0 (length data).
Proof.
  intros Hs Hmain. pose proof (run_inv data sched s Hs) as [Hp Hm].
  unfold main_inv in Hm. rewrite Hmain in Hm.
  assert (Hq : quiescent s ∧ ∃ tr, trace s = tr ++ [EvShutdown])
    by (destruct o; tauto).
  destruct Hq as [Hq (tr & Htr)].
  split; [|split; [|split]].
  - intros i d Hd. apply (quiescent_outcome data); try done. by rewrite Hmain.
  - by destruct Hq.
  - unfold in_flight. destruct Hq as [_ ->]. done.
  - exists tr. split; [done|].
    pose proof (pool_done _ _ _ Hp) as Hdone.
    rewrite Htr, done_ids_app in Hdone. simpl in Hdone. rewrite app_nil_r in Hdone.
    rewrite Hdone.
    pose proof (pool_ids _ _ _ Hp) as Hids.
    destruct (pool_queue _ _ _ Hp) as [Hq1 _].
    pose proof (pool_data _ _ _ Hp) as Hdata.
    rewrite Hmain in Hdata. simpl in Hdata. rewrite app_nil_r in Hdata.
    destruct Hq as [Hq Hb]. rewrite Hb in Hids. rewrite Hq in Hq1.
    simpl in Hids, Hq1. rewrite Hids. f_equiv. rewrite <- Hdata. lia.
Qed.

(** C8.  When the mapping function returns the empty sequence for
    every identifier, [_parallel] completes and returns the empty
    list under every schedule. *)
Theorem parallel_all_empty data :
  Forall (λ d, items_of (func d) = [] ∧ failure_of (func d) = None) data →
  (∃ sched, _parallel func data sched = Some (Return []))
  ∧ ∀ sched o, _parallel func data sched = Some o → o = Return [].
Proof.
  intros Hempty.
  assert (Hok : Forall (λ d, failure_of (func d) = None) data).
  { eapply Forall_impl; [exact Hempty|]. by intros d [_ ?]. }
  assert (Hnil : flat_map (λ d, items_of (func d)) data = []).
  { clear Hok. induction Hempty as [|d data [Hd _] _ IH]; [done|].
    simpl. by rewrite Hd, IH. }
  assert (Hall : ∀ sched o, _parallel func data sched = Some o → o = Return []).
  { intros sched o Ho. destruct (all_succeed_returns data sched o Hok Ho) as [r ->].
    pose proof (returned_items data sched r Ho) as Hperm.
    rewrite Hnil in Hperm. symmetry in Hperm. apply Permutation_nil in Hperm.
    by subst r. }
  split; [|done].
  destruct (parallel_completes data) as [o Ho].
  rewrite (Hall _ o Ho) in Ho. eauto.
Qed.

End WithFunc.
End ParallelFacts.

(** * Who runs the body of [_get_pulls] *)

Section GetPullsFacts.
Import Github GH Examples.

(** Under every schedule, every item of [open_prs] is produced by the
    caller of [_parallel]: no worker thread ever runs the body of the
    generator. *)
Lemma get_pulls_never_runs_in_worker github sched s :
  steps (_get_pulls github) sched (init (repo_names github)) = Some s →
  Forall (λ p, p.1.1 = Caller) (productions (trace s)).
Proof.
  intros [Hp _]%run_inv. pose proof (pool_events _ _ _ Hp) as Hev.
  induction Hev as [|ev tr Hok _ IH]; [constructor|].
  destruct ev as [| |[|w] i v| | |]; simpl; try done.
  - by constructor.
  - exfalso. simpl in Hok. destruct Hok as (d & l & _ & Hl). discriminate.
Qed.

(** C3, at one repository with one open pull request.  The task is
    complete ([EvDone]) before anything has been produced; the pair is
    produced afterwards, by the caller, inside [result.extend]. *)
Theorem get_pulls_body_runs_in_caller :
  ∃ s, steps (_get_pulls one_repo) one_task (init (repo_names one_repo)) = Some s
    ∧ completed s = Some (Return [(tox [pr_1], pr_1)])
    ∧ trace s = [EvSubmit 0 "tox-dev/tox"; EvCall 0 0 "tox-dev/tox"; EvDone 0;
                 EvCollect 0; EvProduce Caller 0 (tox [pr_1], pr_1); EvShutdown].
Proof.
  eexists. split; [vm_compute; reflexivity|]. split; vm_compute; reflexivity.
Qed.

End GetPullsFacts.


(** * Facts about strings *)

Section StrFacts.

Lemma str_compare_refl a : String_as_OT.compare a a = Eq.
Proof.
  destruct (String_as_OT.compare_spec a a) as [_|H|H]; [done| |];
    by apply (irreflexivity String_as_OT.lt) in H.
Qed.

Lemma str_compare_eq a b : String_as_OT.compare a b = Eq → a = b.
Proof. by destruct (String_as_OT.compare_spec a b). Qed.

Lemma str_compare_gt a b :
  String_as_OT.compare a b = Gt ↔ String_as_OT.compare b a = Lt.
Proof.
  split; intros H.
  - destruct (String_as_OT.compare_spec a b) as [|?|Hlt]; try done.
  - destruct (String_as_OT.compare_spec a b) as [->|Hlt|]; try done.
    + by rewrite str_compare_refl in H.
    + exfalso. apply (irreflexivity String_as_OT.lt a).
      by trans b.
Qed.

Lemma str_lt_trans a b c :
  String_as_OT.compare a b = Lt → String_as_OT.compare b c = Lt →
  String_as_OT.compare a c = Lt.
Proof. apply (transitivity (R:=String_as_OT.lt)). Qed.

Lemma str_ltb_irrefl a : Str.ltb a a = false.
Proof. unfold Str.ltb. by rewrite str_compare_refl. Qed.

Lemma str_ltb_trans a b c :
  Str.ltb a b = true → Str.ltb b c = true → Str.ltb a c = true.
Proof.
  unfold Str.ltb.
  destruct (String_as_OT.compare a b) eqn:Hab; try done.
  destruct (String_as_OT.compare b c) eqn:Hbc; try done.
  by rewrite (str_lt_trans a b c).
Qed.

Lemma str_ltb_total a b : Str.ltb a b = false → Str.ltb b a = false → a = b.
Proof.
  unfold Str.ltb.
  destruct (String_as_OT.compare a b) eqn:Hab; try done.
  - intros _ _. by apply str_compare_eq.
  - apply str_compare_gt in Hab. by rewrite Hab.
Qed.

End StrFacts.

(** * Facts about [sorted] *)

Section SortFacts.
Context {A K : Type} (key : A → K) (ltb : K → K → bool).
Hypothesis ltb_irrefl : ∀ a, ltb a a = false.
Hypothesis ltb_trans : ∀ a b c, ltb a b = true → ltb b c = true → ltb a c = true.
Hypothesis ltb_total : ∀ a b, ltb a b = false → ltb b a = false → a = b.

Local Abbreviation insert := (OpenPRs.insert key ltb).
Local Abbreviation stable_sort := (OpenPRs.stable_sort key ltb).

Local Abbreviation ordered := (OpenPRs.ordered key ltb).
Local Abbreviation no_ties := (OpenPRs.no_ties key).

Lemma ltb_asym a b : ltb a b = true → ltb b a = false.
Proof.
  intros Hab. destruct (ltb b a) eqn:Hba; [|done].
  by rewrite <- (ltb_irrefl a), (ltb_trans a b a).
Qed.

Lemma ltb_ge_trans a b c : ltb a b = true → ltb c b = false → ltb a c = true.
Proof.
  intros Hab Hcb. destruct (ltb a c) eqn:Hac; [done|].
  destruct (ltb c a) eqn:Hca.
  - by rewrite (ltb_trans c a b) in Hcb.
  - rewrite (ltb_total a c Hac Hca) in Hab. congruence.
Qed.

Lemma ltb_le_lt a b c : ltb c a = false → ltb c b = true → ltb a b = true.
Proof.
  intros Hca Hcb. destruct (ltb a b) eqn:Hab; [done|].
  destruct (ltb b a) eqn:Hba.
  - by rewrite (ltb_trans c b a) in Hca.
  - rewrite (ltb_total a b Hab Hba) in Hca. congruence.
Qed.

Lemma insert_perm x l : insert x l ≡ₚ x :: l.
Proof.
  induction l as [|y l IH]; simpl; [done|].
  destruct (ltb (key y) (key x)); [|done].
  rewrite IH. apply perm_swap.
Qed.

Lemma stable_sort_perm l : stable_sort l ≡ₚ l.
Proof.
  induction l as [|x l IH]; simpl; [done|].
  by rewrite insert_perm, IH.
Qed.

Lemma insert_ordered x l : ordered l → ordered (insert x l).
Proof.
  induction 1 as [|y l Hl IH Hy]; simpl.
  - repeat constructor.
  - destruct (ltb (key y) (key x)) eqn:Hyx.
    + constructor; [done|].
      apply Forall_forall. intros z Hz. rewrite insert_perm in Hz.
      apply elem_of_cons in Hz as [->|Hz]; [by apply ltb_asym|].
      rewrite Forall_forall in Hy. by apply Hy.
    + constructor; [by constructor|].
      constructor; [done|].
      apply Forall_forall. intros z Hz. rewrite Forall_forall in Hy.
      specialize (Hy z Hz).
      destruct (ltb (key z) (key x)) eqn:Hzx; [|done].
      destruct (ltb (key x) (key y)) eqn:Hxy.
      * by rewrite (ltb_trans _ _ _ Hzx Hxy) in Hy.
      * rewrite <- (ltb_total _ _ Hxy Hyx) in Hy. congruence.
Qed.

Lemma stable_sort_ordered l : ordered (stable_sort l).
Proof.
  induction l as [|x l IH]; simpl; [constructor|]. by apply insert_ordered.
Qed.

(** Ties keep their place: the elements of any one key come out in the
    order they went in. *)
Lemma insert_stable `{EqDecision K} k x l :
  filter (λ a, key a = k) (insert x l) = filter (λ a, key a = k) (x :: l).
Proof.
  induction l as [|y l IH]; simpl; [done|].
  destruct (ltb (key y) (key x)) eqn:Hyx; [|done].
  rewrite !filter_cons, IH, !filter_cons.
  destruct (decide (key y = k)) as [Hy|Hy], (decide (key x = k)) as [Hx|Hx]; try done.
  rewrite Hy, Hx, ltb_irrefl in Hyx. done.
Qed.

Lemma stable_sort_stable `{EqDecision K} k l :
  filter (λ a, key a = k) (stable_sort l) = filter (λ a, key a = k) l.
Proof.
  induction l as [|x l IH]; simpl; [done|].
  by rewrite insert_stable, !filter_cons, IH.
Qed.

(** Elements with different keys can be inserted in either order. *)
Lemma insert_comm x y l :
  key x ≠ key y → insert x (insert y l) = insert y (insert x l).
Proof.
  intros Hne.
  assert (Hxy : ltb (key x) (key y) = negb (ltb (key y) (key x))).
  { destruct (ltb (key x) (key y)) eqn:H1, (ltb (key y) (key x)) eqn:H2; try done.
    - by rewrite (ltb_asym _ _ H1) in H2.
    - by destruct (Hne (ltb_total _ _ H1 H2)). }
  induction l as [|z l IH]; simpl.
  - rewrite Hxy. by destruct (ltb (key y) (key x)).
  - destruct (ltb (key z) (key y)) eqn:Hzy, (ltb (key z) (key x)) eqn:Hzx; simpl.
    + by rewrite Hzy, Hzx, IH.
    + rewrite Hzx, (ltb_le_lt _ _ _ Hzx Hzy). simpl. by rewrite Hzy.
    + rewrite Hzy, (ltb_le_lt _ _ _ Hzy Hzx). simpl. by rewrite Hzx.
    + rewrite Hxy. destruct (ltb (key y) (key x)); simpl; by rewrite ?Hzy, ?Hzx.
Qed.

Lemma insert_foldr_comm x b l :
  Forall (λ y, key x ≠ key y) b →
  insert x (foldr insert l b) = foldr insert (insert x l) b.
Proof.
  induction 1 as [|y b Hy _ IH]; simpl; [done|].
  by rewrite insert_comm, IH.
Qed.

Lemma foldr_insert_swap b1 b2 l :
  no_ties b1 b2 →
  foldr insert (foldr insert l b2) b1 = foldr insert (foldr insert l b1) b2.
Proof.
  induction b1 as [|x b1 IH]; intros Hno; simpl; [done|].
  rewrite IH by (intros x' y Hx' Hy; apply Hno; [by right|done]).
  apply insert_foldr_comm. apply Forall_forall. intros y Hy.
  apply Hno; [left|done].
Qed.

Lemma stable_sort_app l1 l2 :
  stable_sort (l1 ++ l2) = foldr insert (stable_sort l2) l1.
Proof. apply foldr_app. Qed.

Lemma ForallOrdPairs_perm {I} (R : I → I → Prop) (o1 o2 : list I) :
  (∀ i j, R i j → R j i) → o1 ≡ₚ o2 → ForallOrdPairs R o1 → ForallOrdPairs R o2.
Proof.
  intros Hsym.
  induction 1 as [|i o1 o2 Hperm IH|i j o|o1 o2 o3 H12 IH12 H23 IH23]; intros Hp.
  - done.
  - inversion Hp as [|? ? Hi Hp']; subst. constructor; [|auto].
    eapply Permutation_Forall; eauto.
  - inversion Hp as [|? ? Hj Hp']; subst.
    inversion Hp' as [|? ? Hi Hp'']; subst.
    inversion Hj as [|? ? Hji Hj']; subst.
    constructor; [constructor; auto|]. by constructor.
  - auto.
Qed.

(** Blocks that share no key can be permuted before sorting. *)
Lemma stable_sort_blocks {I} (blk : I → list A) (o1 o2 : list I) :
  o1 ≡ₚ o2 →
  ForallOrdPairs (λ i j, no_ties (blk i) (blk j) ∧ no_ties (blk j) (blk i)) o1 →
  stable_sort (flat_map blk o1) = stable_sort (flat_map blk o2).
Proof.
  induction 1 as [|i o1 o2 Hperm IH|i j o|o1 o2 o3 H12 IH12 H23 IH23]; intros Hp.
  - done.
  - simpl. rewrite !stable_sort_app. rewrite IH; [done|]. by inversion Hp.
  - simpl. rewrite !stable_sort_app.
    apply foldr_insert_swap.
    inversion Hp as [|? ? Hj _]; subst. inversion Hj as [|? ? [H1 H2] _]; subst.
    done.
  - rewrite IH12 by done. apply IH23.
    eapply ForallOrdPairs_perm; [|exact H12|exact Hp].
    intros i j [H1 H2]. by split.
Qed.

End SortFacts.

(** * The order of the sort keys *)

Section KeyOrder.
Import OpenPRs.

Local Ltac cmp_cases :=
  repeat first
    [ progress subst
    | done
    | match goal with
      | H : String_as_OT.compare ?x ?x = _ |- _ =>
          rewrite str_compare_refl in H
      | H : String_as_OT.compare ?x ?y = Eq |- _ =>
          apply str_compare_eq in H
      | H : String_as_OT.compare ?x ?y = Gt |- _ =>
          apply str_compare_gt in H
      | H1 : String_as_OT.compare ?x ?y = Lt,
        H2 : String_as_OT.compare ?y ?x = Lt |- _ =>
          pose proof (str_lt_trans x y x H1 H2); clear H1
      | H1 : String_as_OT.compare ?x ?y = Lt,
        H2 : String_as_OT.compare ?y ?z = Lt
        |- context [String_as_OT.compare ?x ?z] =>
          rewrite (str_lt_trans x y z H1 H2)
      | |- context [String_as_OT.compare ?x ?x] =>
          rewrite (str_compare_refl x)
      | |- context [String_as_OT.compare ?x ?y] =>
          destruct (String_as_OT.compare x y) eqn:?
      end
    | progress simpl in * ].

Lemma key_ltb_irrefl a : key_ltb a a = false.
Proof. destruct a as [[a1 a2] a3]. unfold key_ltb, key_compare. simpl. cmp_cases. Qed.

Lemma key_ltb_trans a b c :
  key_ltb a b = true → key_ltb b c = true → key_ltb a c = true.
Proof.
  destruct a as [[a1 a2] a3], b as [[b1 b2] b3], c as [[c1 c2] c3].
  unfold key_ltb, key_compare. simpl.
  destruct (String_as_OT.compare a1 b1) eqn:H1; try done;
  destruct (String_as_OT.compare b1 c1) eqn:H2; try done; cmp_cases.
  all: destruct (String_as_OT.compare a2 b2) eqn:H3; try done;
       destruct (String_as_OT.compare b2 c2) eqn:H4; try done; cmp_cases.
Qed.

Lemma key_ltb_total a b : key_ltb a b = false → key_ltb b a = false → a = b.
Proof.
  destruct a as [[a1 a2] a3], b as [[b1 b2] b3].
  unfold key_ltb, key_compare. simpl.
  destruct (String_as_OT.compare a1 b1) eqn:H1; try done; cmp_cases.
Qed.

End KeyOrder.

(** * [os.path.commonprefix] does not depend on the order of the list *)

Section CommonPrefix.

Lemma foldr_min_spec (ltb : string → string → bool) s l :
  (∀ a, ltb a a = false) →
  (∀ a b c, ltb a b = true → ltb b c = true → ltb a c = true) →
  (∀ a b, ltb a b = false → ltb b a = false → a = b) →
  let m := foldr (λ a b, if ltb b a then b else a) s l in
  m ∈ s :: l ∧ ∀ x, x ∈ s :: l → ltb x m = false.
Proof.
  intros Hirr Htr Htot. induction l as [|y l [IHin IHle]]; simpl.
  - split; [left|]. intros x ->%list_elem_of_singleton. apply Hirr.
  - destruct (ltb (foldr _ s l) y) eqn:Hlt.
    + split.
      * apply elem_of_cons in IHin as [->|?]; [left|right; by right].
      * intros x [->|[->|Hx]%elem_of_cons]%elem_of_cons.
        -- apply IHle. left.
        -- by apply (ltb_asym ltb Hirr Htr).
        -- apply IHle. by right.
    + split; [right; left|].
      intros x Hx.
      assert (Hx' : x = y ∨ x ∈ s :: l).
      { apply elem_of_cons in Hx as [->|[->|Hx]%elem_of_cons]; auto.
        - right. left.
        - right. by right. }
      destruct Hx' as [->|Hx']; [apply Hirr|].
      specialize (IHle x Hx').
      destruct (ltb x y) eqn:Hxy; [|done].
      by rewrite (ltb_ge_trans ltb Htr Htot x y _ Hxy Hlt) in IHle.
Qed.

Lemma foldr_min_perm (ltb : string → string → bool) s1 l1 s2 l2 :
  (∀ a, ltb a a = false) →
  (∀ a b c, ltb a b = true → ltb b c = true → ltb a c = true) →
  (∀ a b, ltb a b = false → ltb b a = false → a = b) →
  s1 :: l1 ≡ₚ s2 :: l2 →
  foldr (λ a b, if ltb b a then b else a) s1 l1
  = foldr (λ a b, if ltb b a then b else a) s2 l2.
Proof.
  intros Hirr Htr Htot Hperm.
  destruct (foldr_min_spec ltb s1 l1 Hirr Htr Htot) as [Hin1 Hle1].
  destruct (foldr_min_spec ltb s2 l2 Hirr Htr Htot) as [Hin2 Hle2].
  apply Htot.
  - apply Hle2. by rewrite <- Hperm.
  - apply Hle1. by rewrite Hperm.
Qed.

Lemma commonprefix_perm l1 l2 :
  l1 ≡ₚ l2 → Str.commonprefix l1 = Str.commonprefix l2.
Proof.
  intros Hperm. destruct l1 as [|s1 l1], l2 as [|s2 l2]; simpl.
  - done.
  - by apply Permutation_nil_cons in Hperm.
  - symmetry in Hperm. by apply Permutation_nil_cons in Hperm.
  - f_equal.
    + apply (foldr_min_perm Str.ltb); try done.
      * apply str_ltb_irrefl.
      * apply str_ltb_trans.
      * apply str_ltb_total.
    + apply (foldr_min_perm (flip Str.ltb)); unfold flip; try done.
      * intros a. apply str_ltb_irrefl.
      * intros a b c Hab Hbc. by apply (str_ltb_trans c b a).
      * intros a b Hab Hba. by apply str_ltb_total.
Qed.

End CommonPrefix.

(** * The table of open pull requests *)

Section OpenPRsFacts.
Import Github OpenPRs.

Lemma flip_key_ltb_irrefl a : flip key_ltb a a = false.
Proof. apply key_ltb_irrefl. Qed.

Lemma flip_key_ltb_trans a b c :
  flip key_ltb a b = true → flip key_ltb b c = true → flip key_ltb a c = true.
Proof. unfold flip. intros Hab Hbc. by apply (key_ltb_trans c b a). Qed.

Lemma flip_key_ltb_total a b :
  flip key_ltb a b = false → flip key_ltb b a = false → a = b.
Proof. unfold flip. intros Hab Hba. by apply key_ltb_total. Qed.

Lemma add_rows_rows check_call opts_open prefix l rows :
  add_rows check_call opts_open prefix l = inr rows → rows = row prefix <$> l.
Proof.
  revert rows. induction l as [|d l IH]; simpl; intros rows.
  - by intros [= <-].
  - destruct (opts_open && negb (check_call _)); [done|].
    destruct (add_rows check_call opts_open prefix l) as [cmd|rows']; [done|].
    intros [= <-]. by rewrite (IH rows').
Qed.

Lemma add_rows_closed check_call prefix l :
  add_rows check_call false prefix l = inr (row prefix <$> l).
Proof. induction l as [|d l IH]; simpl; [done|]. by rewrite IH. Qed.

Lemma NoDup_ForallOrdPairs {I} (R : I → I → Prop) (l : list I) :
  NoDup l → (∀ i j, i ≠ j → R i j) → ForallOrdPairs R l.
Proof.
  intros Hnd HR. induction Hnd as [|i l Hi Hnd IH]; constructor; [|done].
  apply Forall_forall. intros j Hj. apply HR. intros ->. done.
Qed.

(** Under [no_shared_keys] the sorted pairs and the prefix are the same
    for any two results of the fetch. *)
Lemma render_independent github check_call opts_open sched1 sched2 prs1 prs2 :
  no_shared_keys github →
  GH.open_prs github sched1 = Some (GH.Return prs1) →
  GH.open_prs github sched2 = Some (GH.Return prs2) →
  render check_call opts_open prs1 = render check_call opts_open prs2.
Proof.
  intros Hfree H1 H2. unfold GH.open_prs in *.
  destruct (return_blocks _ _ _ _ H1) as (o1 & Hp1 & -> & _).
  destruct (return_blocks _ _ _ _ H2) as (o2 & Hp2 & -> & _).
  set (blk := GH.block (GH._get_pulls github) (GH.repo_names github)).
  assert (Hperm : o1 ≡ₚ o2) by (by rewrite Hp1, Hp2).
  unfold render.
  assert (Hsort : sorted sort_key key_ltb true (flat_map blk o1)
                  = sorted sort_key key_ltb true (flat_map blk o2)).
  { unfold sorted.
    apply (stable_sort_blocks sort_key (flip key_ltb)
             flip_key_ltb_irrefl flip_key_ltb_trans flip_key_ltb_total blk);
      [done|].
    apply NoDup_ForallOrdPairs.
    - rewrite Hp1. apply NoDup_seq.
    - intros i j Hne. split; intros x y Hx Hy.
      + by apply (Hfree i j).
      + apply (Hfree j i); [congruence|done..]. }
  assert (Hprefix : Str.commonprefix ((λ d, updated_at d.2) <$> flat_map blk o1)
                    = Str.commonprefix ((λ d, updated_at d.2) <$> flat_map blk o2)).
  { apply commonprefix_perm. apply fmap_Permutation.
    by apply Permutation_flat_map. }
  by rewrite Hsort, Hprefix.
Qed.

(** C9, as amended.  The rows of the pull-request table are the fetched
    pairs in descending order of the key (owner login, repository name,
    [updated_at] in ISO format), pairs with equal keys keeping their
    fetch order; so when pairs fetched for different identifiers never
    have equal keys, the command shows the same rows whatever the
    completion order of the parallel fetch. *)
Theorem pr_rows_sorted_descending github check_call opts_open sched prs :
  GH.open_prs github sched = Some (GH.Return prs) →
  let shown := sorted sort_key key_ltb true prs in
  let prefix := Str.commonprefix ((λ d, updated_at d.2) <$> prs) in
  (∀ t, run check_call opts_open github sched = Some (Printed t) →
        table_rows t = row prefix <$> shown)
  ∧ (∃ t, run check_call false github sched = Some (Printed t))
  ∧ shown ≡ₚ prs
  ∧ StronglySorted (λ a b, key_ltb (sort_key a) (sort_key b) = false) shown
  ∧ (∀ k, filter (λ d, sort_key d = k) shown = filter (λ d, sort_key d = k) prs)
  ∧ (no_shared_keys github →
     ∀ sched' prs', GH.open_prs github sched' = Some (GH.Return prs') →
       run check_call opts_open github sched'
       = run check_call opts_open github sched).
Proof.
  intros Hprs shown prefix. repeat split.
  - intros t. unfold run, render. rewrite Hprs. fold prefix. fold shown.
    destruct (add_rows check_call opts_open prefix shown) as [cmd|rows] eqn:Hrows;
      [done|].
    intros [= <-]. simpl. by apply add_rows_rows in Hrows.
  - unfold run, render. rewrite Hprs. rewrite add_rows_closed. eauto.
  - apply (stable_sort_perm sort_key (flip key_ltb)).
  - apply (stable_sort_ordered sort_key (flip key_ltb)
             flip_key_ltb_irrefl flip_key_ltb_trans flip_key_ltb_total).
  - intros k. apply (stable_sort_stable sort_key (flip key_ltb) flip_key_ltb_irrefl).
  - intros Hfree sched' prs' Hprs'. unfold run. rewrite Hprs, Hprs'.
    f_equal. by apply (render_independent github _ _ sched' sched).
Qed.

End OpenPRsFacts.

(** * The installer *)

Section InstallFacts.
Import InstallUvPython.

Lemma executed_effect cmd w : executed (effect cmd w) = executed w ++ [cmd].
Proof.
  unfold effect.
  repeat (match goal with
          | |- context [match ?x with _ => _ end] => destruct x
          end; try done).
Qed.

Lemma check_calls_app ok cmds1 cmds2 w :
  check_calls ok (cmds1 ++ cmds2) w
  = match check_calls ok cmds1 w with
    | inl cmd => inl cmd
    | inr w1 => check_calls ok cmds2 w1
    end.
Proof.
  revert w. induction cmds1 as [|cmd cmds1 IH]; intros w; simpl; [done|].
  destruct (ok cmd); [apply IH|done].
Qed.

Lemma check_calls_executed ok cmds w w' :
  check_calls ok cmds w = inr w' → executed w' = executed w ++ cmds.
Proof.
  revert w. induction cmds as [|cmd cmds IH]; intros w; simpl.
  - intros [= <-]. by rewrite app_nil_r.
  - destruct (ok cmd); [|done]. intros Hw'%IH.
    by rewrite Hw', executed_effect, <- app_assoc.
Qed.

Lemma joinpath_inj a b c : joinpath a b = joinpath a c → b = c.
Proof.
  unfold joinpath. intros H%(inj (String.app a)).
  by apply (inj (String.app "/")) in H.
Qed.

Lemma loop_leaves_python_alone home :
  Forall (λ cmd, ∀ target,
            cmd ≠ ["ln"; "-s"; "-f"; target; joinpath (dest home) "python"])
         (loop_commands home).
Proof.
  unfold loop_commands, py. cbn [flat_map install_one app].
  repeat (constructor; [intros target; try discriminate|]);
    try (intros [= _ Heq]; apply joinpath_inj in Heq; vm_compute in Heq; discriminate).
  constructor.
Qed.


(** C10.  When [run] completes, the last command it executed is the
    link of the unversioned [python] in [~/.local/bin]; no command of
    the preceding loops touches that name; the link points at the
    interpreter of [cpython-3.13.2], the final entry of the configured
    CPython list and the newest release in it. *)
Theorem python_link_is_last_and_newest ok home w w' :
  run ok home w = inr w' →
  links w' !! joinpath (dest home) "python"
  = Some (joinpath (joinpath (joinpath (src home)
            "cpython-3.13.2-macos-aarch64-none") "bin") "python")
  ∧ (∃ before,
       executed w' = executed w ++ before ++ [link_python home]
       ∧ Forall (λ cmd, ∀ target,
                   cmd ≠ ["ln"; "-s"; "-f"; target; joinpath (dest home) "python"])
                before)
  ∧ List.last (getitem "cpython" py) EmptyString = "3.13.2"
  ∧ Forall (λ v, version_leb (version_info v) (version_info "3.13.2") = true)
           (getitem "cpython" py).
Proof.
  intros Hrun. unfold run, commands in Hrun.
  pose proof (check_calls_executed _ _ _ _ Hrun) as Hexec.
  rewrite check_calls_app in Hrun.
  destruct (check_calls ok (loop_commands home) w) as [cmd|w1]; [done|].
  simpl in Hrun. destruct (ok (link_python home)); [|done].
  injection Hrun as <-.
  split; [|split; [|split]].
  - simpl. apply lookup_insert_eq.
  - exists (loop_commands home). split; [done|]. apply loop_leaves_python_alone.
  - done.
  - vm_compute. repeat constructor.
Qed.

End InstallFacts.

(** * The theorems at concrete inputs *)

Section Witnesses.
Import Github GH Examples.

Lemma parallel_returns_every_item_witness :
  Forall (λ d, failure_of (two_items d) = None) abc
  ∧ (∃ sched r, _parallel two_items abc sched = Some (Return r))
  ∧ ∀ sched o, _parallel two_items abc sched = Some o →
      ∃ r, o = Return r
        ∧ r ≡ₚ flat_map (λ d, items_of (two_items d)) abc
        ∧ length r = list_sum (map (λ d, length (items_of (two_items d))) abc).
Proof.
  assert (Hok : Forall (λ d, failure_of (two_items d) = None) abc)
    by (repeat constructor).
  split; [exact Hok|].
  exact (parallel_returns_every_item two_items abc Hok).
Defined.

Lemma parallel_surfaces_failure_witness :
  (∃ sched, _parallel b_fails abc sched = Some (Raise "boom"))
  ∧ ∀ sched o, _parallel b_fails abc sched = Some o → o = Raise "boom".
Proof.
  apply (parallel_surfaces_failure b_fails abc 1 "b" "boom").
  - reflexivity.
  - reflexivity.
  - intros [|[|[|j]]] d' Hj Hd'; simpl in Hd'; try done;
      injection Hd' as <-; reflexivity.
Defined.

Lemma parallel_blocks_in_some_order_witness :
  ∃ sched, _parallel two_items abc sched
           = Some (Return ["c1"; "c2"; "a1"; "a2"; "b1"; "b2"]).
Proof.
  apply (proj2 (parallel_blocks_in_some_order two_items abc)
           ltac:(repeat constructor) [2; 0; 1]).
  apply (Permutation_cons_append [0; 1] 2).
Defined.

Lemma parallel_bounded_concurrency_witness :
  ∃ s, steps two_items saturate (init thirteen) = Some s
    ∧ in_flight s = 12 ∧ queue s = [12]
    ∧ length (calls (trace s)) = length (done_ids (trace s)) + in_flight s
    ∧ in_flight s ≤ max_workers ∧ max_workers = 12.
Proof.
  eexists. split; [vm_compute; reflexivity|].
  split; [reflexivity|]. split; [reflexivity|].
  apply (parallel_bounded_concurrency two_items thirteen saturate).
  vm_compute. reflexivity.
Defined.

Lemma parallel_one_call_per_element_witness :
  ∃ s, steps two_items in_turn (init abc) = Some s
    ∧ main s = Done (Return ["a1"; "a2"; "b1"; "b2"; "c1"; "c2"])
    ∧ submits (trace s) = [(0, "a"); (1, "b"); (2, "c")]
    ∧ calls (trace s) = [(0, "a"); (1, "b"); (2, "c")].
Proof.
  eexists. split; [vm_compute; reflexivity|].
  match goal with
  | |- main ?s = ?m ∧ _ =>
      assert (Hs : steps two_items in_turn (init abc) = Some s)
        by (vm_compute; reflexivity);
      assert (Hm : main s = m) by (vm_compute; reflexivity);
      exact (conj Hm (proj2 (proj2 (parallel_one_call_per_element
                                      two_items abc in_turn s Hs)) _ Hm))
  end.
Defined.

Lemma parallel_waits_for_all_tasks_witness :
  ∃ s, steps b_fails
         [Submit; Submit; Submit; AsCompleted; Take 0; Finish 0; Take 0;
          Finish 0; Collect 1; Take 0; Finish 0; Exit] (init abc) = Some s
    ∧ main s = Done (Raise "boom")
    ∧ (∀ i d, abc !! i = Some d → outcome i (finished s) = Some (b_fails d))
    ∧ queue s = [] ∧ in_flight s = 0
    ∧ ∃ tr, trace s = tr ++ [EvShutdown] ∧ done_ids tr ≡ₚ seq 0 (length abc).
Proof.
  eexists. split; [vm_compute; reflexivity|].
  match goal with
  | |- main ?s = ?m ∧ _ =>
      assert (Hs : steps b_fails
                     [Submit; Submit; Submit; AsCompleted; Take 0; Finish 0;
                      Take 0; Finish 0; Collect 1; Take 0; Finish 0; Exit]
                     (init abc) = Some s)
        by (vm_compute; reflexivity);
      assert (Hm : main s = m) by (vm_compute; reflexivity);
      exact (conj Hm (parallel_waits_for_all_tasks b_fails abc _ s _ Hs Hm))
  end.
Defined.

Lemma parallel_all_empty_witness :
  (∃ sched, _parallel nothing abc sched = Some (Return []))
  ∧ ∀ sched o, _parallel nothing abc sched = Some o → o = Return [].
Proof.
  apply (parallel_all_empty nothing abc). repeat constructor.
Defined.


Lemma two_repos_no_shared_keys : OpenPRs.no_shared_keys two_repos.
Proof.
  intros i j x y Hne Hx Hy.
  destruct i as [|[|i]], j as [|[|j]]; try done;
    vm_compute in Hx; vm_compute in Hy;
    repeat match goal with
           | H : list_elem_of _ [] |- _ => by apply elem_of_nil in H
           | H : list_elem_of _ (_ :: _) |- _ => apply elem_of_cons in H as [->|H]
           | H : _ ∈ [] |- _ => by apply elem_of_nil in H
           | H : _ ∈ _ :: _ |- _ => apply elem_of_cons in H as [->|H]
           end; intros Heq; vm_compute in Heq; discriminate Heq.
Qed.

Lemma pr_rows_sorted_descending_witness :
  let prs := [(pyproject_api, pr_3); (tox [pr_1; pr_2], pr_1);
              (tox [pr_1; pr_2], pr_2)] in
  let shown := OpenPRs.sorted OpenPRs.sort_key OpenPRs.key_ltb true prs in
  let prefix := Str.commonprefix ((λ d, updated_at d.2) <$> prs) in
  GH.open_prs two_repos second_then_first = Some (Return prs)
  ∧ (∀ t, OpenPRs.run always_ok true two_repos second_then_first
          = Some (OpenPRs.Printed t) →
          OpenPRs.table_rows t = OpenPRs.row prefix <$> shown)
  ∧ (∃ t, OpenPRs.run always_ok false two_repos second_then_first
          = Some (OpenPRs.Printed t))
  ∧ shown ≡ₚ prs
  ∧ StronglySorted
      (λ a b, OpenPRs.key_ltb (OpenPRs.sort_key a) (OpenPRs.sort_key b) = false)
      shown
  ∧ (∀ k, filter (λ d, OpenPRs.sort_key d = k) shown
          = filter (λ d, OpenPRs.sort_key d = k) prs)
  ∧ (OpenPRs.no_shared_keys two_repos →
     ∀ sched' prs', GH.open_prs two_repos sched' = Some (Return prs') →
       OpenPRs.run always_ok true two_repos sched'
       = OpenPRs.run always_ok true two_repos second_then_first).
Proof.
  intros prs shown prefix.
  assert (Hprs : GH.open_prs two_repos second_then_first = Some (Return prs))
    by (vm_compute; reflexivity).
  split; [exact Hprs|].
  exact (pr_rows_sorted_descending two_repos always_ok true second_then_first
           prs Hprs).
Defined.

(** C9, as stated, fails when two identifiers reach the same
    repository: the two pull requests have the same key, so the one
    fetched first stays first, and that is decided by the completion
    order. *)
Lemma rows_depend_on_completion_order :
  ¬ OpenPRs.rows_independent same_repo_twice.
Proof.
  intros Hind.
  destruct (OpenPRs.run always_ok false same_repo_twice first_then_second)
    as [[e|cmd|t1]|] eqn:H1; try (vm_compute in H1; discriminate H1).
  destruct (OpenPRs.run always_ok false same_repo_twice second_then_first)
    as [[e|cmd|t2]|] eqn:H2; try (vm_compute in H2; discriminate H2).
  pose proof (Hind _ _ _ _ _ _ H1 H2) as Heq.
  vm_compute in H1, H2. injection H1 as <-. injection H2 as <-.
  vm_compute in Heq. discriminate Heq.
Qed.

Lemma python_link_is_last_and_newest_witness :
  ∃ w', InstallUvPython.run always_ok "/Users/me" empty_world = inr w'
    ∧ InstallUvPython.links w' !! "/Users/me/.local/bin/python"
      = Some "/Users/me/Library/Application Support/uv/python/cpython-3.13.2-macos-aarch64-none/bin/python".
Proof.
  eexists. split; [vm_compute; reflexivity|].
  apply (python_link_is_last_and_newest always_ok "/Users/me" empty_world).
  vm_compute. reflexivity.
Defined.

End Witnesses.

(** * More about class [GH] *)

Section GHFacts.
Import Github GH.



Lemma gen_items_yield_all {V E} (l : list V) (fin : option E) :
  gen_items (yield_all l fin) = l.
Proof. induction l as [|v l IH]; simpl; [by destruct fin|]. by rewrite IH. Qed.

Lemma gen_error_yield_all {V E} (l : list V) (fin : option E) :
  gen_error (yield_all l fin) = fin.
Proof. induction l as [|v l IH]; simpl; [by destruct fin|]. done. Qed.

(** The pairs one repository name contributes. *)
Lemma get_pulls_items github name repo :
  get_repo github name = inr repo →
  items_of (_get_pulls github name) = (λ pr, (repo, pr)) <$> (get_pulls repo).1
  ∧ failure_of (_get_pulls github name) = (get_pulls repo).2.
Proof.
  intros Hrepo. unfold _get_pulls. simpl. rewrite Hrepo.
  by rewrite gen_items_yield_all, gen_error_yield_all.
Qed.

(** X2.  When every repository is found and every listing is read to its
    end, [open_prs] completes, and under every schedule its value is a
    permutation of the open pull requests of all repositories, each
    paired with its repository. *)
Theorem open_prs_lists_every_pull_request github (repos : list Repository) :
  Forall2 (λ name repo,
             get_repo github name = inr repo ∧ (get_pulls repo).2 = None)
          (repo_names github) repos →
  (∃ sched prs, open_prs github sched = Some (Return prs))
  ∧ ∀ sched o, open_prs github sched = Some o →
      ∃ prs, o = Return prs
        ∧ prs ≡ₚ flat_map (λ repo, (λ pr, (repo, pr)) <$> (get_pulls repo).1) repos.
Proof.
  intros Hrepos. unfold open_prs.
  assert (Hok : Forall (λ d, failure_of (_get_pulls github d) = None)
                       (repo_names github)).
  { induction Hrepos as [|name repo names repos [Hrepo Hfin] _ IH]; constructor;
      [|done].
    destruct (get_pulls_items github name repo Hrepo) as [_ ->]. done. }
  assert (Hitems : flat_map (λ d, items_of (_get_pulls github d)) (repo_names github)
                   = flat_map (λ repo, (λ pr, (repo, pr)) <$> (get_pulls repo).1) repos).
  { clear Hok. induction Hrepos as [|name repo names repos [Hrepo Hfin] _ IH];
      [done|].
    cbn [flat_map]. destruct (get_pulls_items github name repo Hrepo) as [-> _].
    by rewrite IH. }
  split.
  - destruct (parallel_completes (_get_pulls github) (repo_names github)) as [o Ho].
    destruct (all_succeed_returns _ _ _ _ Hok Ho) as [r ->]. eauto.
  - intros sched o Ho.
    destruct (all_succeed_returns _ _ _ _ Hok Ho) as [r ->].
    exists r. split; [done|].
    rewrite <- Hitems. by apply (returned_items _ _ sched).
Qed.

End GHFacts.

(** * More about [_parallel] *)

Section MoreParallelFacts.
Import GH.
Context {T V E : Type}.
Variable func : T → @call_result V E.

(** With the pool quiescent, collecting a failed task ends the loop
    with that task's exception. *)
Lemma collect_failure data s i d e :
  inv func data s → main s = Waiting (seq 0 (length data)) → quiescent s →
  data !! i = Some d → failure_of (func d) = Some e →
  ∃ s', steps func [Collect i; Exit] s = Some s' ∧ main s' = Done (Raise e).
Proof.
  intros [Hp Hm] Hmain [Hq Hb] Hd He.
  assert (Hout : outcome i (finished s) = Some (func d)).
  { apply (quiescent_outcome func data); try done. by rewrite Hmain. }
  assert (Hin : i ∈ seq 0 (length data)).
  { apply elem_of_seq. apply lookup_lt_Some in Hd. lia. }
  destruct s as [m sub q ws fin res tr]. simpl in *. subst m q.
  rewrite bool_decide_eq_true_2 by done. rewrite Hout. simpl.
  destruct (future_result (func d)) as [e'|it] eqn:Hfr.
  - apply future_result_raises in Hfr. rewrite Hfr in He. injection He as ->.
    simpl. rewrite Hb. simpl. eauto.
  - apply future_result_returns in Hfr.
    rewrite extend_spec, <- Hfr, He. simpl. rewrite Hb. simpl. eauto.
Qed.

(** X3.  Several identifiers may fail.  Then no schedule returns a list;
    what is raised is always the failure of one of the identifiers; and
    each failing identifier's exception is the one raised under some
    schedule: which failure surfaces is decided by completion order. *)
Theorem parallel_raises_some_failure data i d e :
  data !! i = Some d → failure_of (func d) = Some e →
  (∃ sched, _parallel func data sched = Some (Raise e))
  ∧ ∀ sched o, _parallel func data sched = Some o →
      ∃ j d' e', o = Raise e' ∧ data !! j = Some d'
                 ∧ failure_of (func d') = Some e'.
Proof.
  intros Hd He. split.
  - destruct (submit_all func data (init data) data)
      as (sched1 & s1 & Hs1 & Hm1 & _);
      [split; [apply pool_inv_init|apply main_inv_init]|done|].
    pose proof (run_inv func data _ _ Hs1) as Hinv1.
    destruct (drain_pool func data (measure s1) s1 Hinv1)
      as (sched2 & s2 & Hs2 & Hq2 & Hm2 & _); [done|].
    pose proof (run_inv_from func data _ _ _ Hinv1 Hs2) as Hinv2.
    destruct (collect_failure data s2 i d e Hinv2) as (s3 & Hs3 & Hm3);
      try done; [congruence|].
    exists (sched1 ++ sched2 ++ [Collect i; Exit]).
    eapply steps_parallel; [|exact Hm3].
    eapply steps_app_Some; [exact Hs1|].
    eapply steps_app_Some; [exact Hs2|exact Hs3].
  - intros sched [r|e'] Ho.
    + apply return_all_succeed in Ho. rewrite Forall_lookup in Ho.
      rewrite (Ho i d Hd) in He. done.
    + apply raise_fails in Ho as (j & d' & Hd' & He'). eauto 10.
Qed.


(** X5.  A mapping function that returns lists has all its items produced
    by worker threads; one that returns generators has all of them
    produced by the caller. *)
Theorem parallel_who_produces data sched s :
  steps func sched (init data) = Some s →
  (Forall (λ d, ∃ l, func d = CallReturns (IList l)) data →
   Forall (λ p, ∃ w, p.1.1 = Worker w) (productions (trace s)))
  ∧ (Forall (λ d, ∃ g, func d = CallReturns (IGen g)) data →
     Forall (λ p, p.1.1 = Caller) (productions (trace s))).
Proof.
  intros [Hp _]%run_inv. pose proof (pool_events _ _ _ Hp) as Hev.
  split; intros Hkind; rewrite Forall_lookup in Hkind.
  - induction Hev as [|ev tr Hok _ IH]; [constructor|].
    destruct ev as [| |[|w] i v| | |]; simpl; try done.
    + exfalso. simpl in Hok. destruct Hok as (d & g & Hd & Hg).
      destruct (Hkind i d Hd) as [l Hl]. congruence.
    + constructor; [|done]. simpl. eauto.
  - induction Hev as [|ev tr Hok _ IH]; [constructor|].
    destruct ev as [| |[|w] i v| | |]; simpl; try done.
    + by constructor.
    + exfalso. simpl in Hok. destruct Hok as (d & l & Hd & Hl).
      destruct (Hkind i d Hd) as [g Hg]. congruence.
Qed.

(** X6.  With no identifiers, [_parallel] starts no thread, calls nothing
    and returns the empty list. *)
Theorem parallel_no_identifiers sched s :
  steps func sched (init []) = Some s →
  workers s = [] ∧ trace s = match main s with Done _ => [EvShutdown] | _ => [] end
  ∧ ∀ o, main s = Done o → o = Return [].
Proof.
  assert (Hstep : ∀ a s s',
    (workers s = [] ∧ queue s = [] ∧ submitted s = [] ∧ finished s = []
     ∧ result s = []
     ∧ (main s = Submitting [] ∨ main s = Waiting [] ∨ main s = Leaving None
        ∨ main s = Done (Return []))
     ∧ trace s = match main s with Done _ => [EvShutdown] | _ => [] end) →
    exec func a s = Some s' →
    (workers s' = [] ∧ queue s' = [] ∧ submitted s' = [] ∧ finished s' = []
     ∧ result s' = []
     ∧ (main s' = Submitting [] ∨ main s' = Waiting [] ∨ main s' = Leaving None
        ∨ main s' = Done (Return []))
     ∧ trace s' = match main s' with Done _ => [EvShutdown] | _ => [] end)).
  { intros a [m sub q ws fin res tr] s'. simpl.
    intros (-> & -> & -> & -> & -> & Hm & ->).
    destruct Hm as [-> | [-> | [-> | ->]]]; destruct a; simpl; try done;
      intros [= <-]; simpl; tauto. }
  assert (Hrun : ∀ s0,
    (workers s0 = [] ∧ queue s0 = [] ∧ submitted s0 = [] ∧ finished s0 = []
     ∧ result s0 = []
     ∧ (main s0 = Submitting [] ∨ main s0 = Waiting [] ∨ main s0 = Leaving None
        ∨ main s0 = Done (Return []))
     ∧ trace s0 = match main s0 with Done _ => [EvShutdown] | _ => [] end) →
    steps func sched s0 = Some s →
    workers s = [] ∧ trace s = match main s with Done _ => [EvShutdown] | _ => [] end
    ∧ ∀ o, main s = Done o → o = Return []).
  { induction sched as [|a sched IH]; intros s0 H0; simpl.
    - intros [= <-]. destruct H0 as (Hw & _ & _ & _ & _ & Hm & Htr).
      split; [done|]. split; [done|].
      intros o Ho. destruct Hm as [Hm|[Hm|[Hm|Hm]]]; congruence.
    - destruct (exec func a s0) as [s1|] eqn:Hs1; [|done]. simpl.
      apply IH. by eapply Hstep. }
  apply Hrun. simpl. tauto.
Qed.

End MoreParallelFacts.

(** * More about [OpenPRs.run] *)

Section MoreOpenPRsFacts.
Import Github OpenPRs.

Lemma add_rows_open check_call prefix l :
  add_rows check_call true prefix l
  = match List.find (λ d, negb (check_call ["open"; html_url d.2])) l with
    | Some d => inl ["open"; html_url d.2]
    | None => inr (row prefix <$> l)
    end.
Proof.
  induction l as [|d l IH]; [done|].
  cbn [add_rows List.find andb].
  destruct (check_call ["open"; html_url d.2]); cbn [negb]; [|done].
  rewrite IH. by destruct (List.find _ l).
Qed.

(** X7.  Without [--open] the table is always printed and [check_call] is
    never consulted; with it, the pages are opened in the order of the
    rows, and the first page that fails to open ends the command with
    its [CalledProcessError], no table being printed. *)
Theorem render_opens_until_failure check_call prs :
  let shown := sorted sort_key key_ltb true prs in
  let prefix := Str.commonprefix ((λ d, updated_at d.2) <$> prs) in
  render check_call false prs
  = Printed {| table_title := "Pull requests @ " +:+ prefix;
               table_columns := ["Date"; "Org"; "Repo"; "Title"];
               table_rows := row prefix <$> shown |}
  ∧ render check_call true prs
    = match List.find (λ d, negb (check_call ["open"; html_url d.2])) shown with
      | Some d => CalledProcessError ["open"; html_url d.2]
      | None => render check_call false prs
      end.
Proof.
  intros shown prefix. unfold render. fold prefix. fold shown.
  rewrite add_rows_closed, add_rows_open.
  split; [done|]. by destruct (List.find _ shown).
Qed.

(** X8.  A printed table has one row per fetched pull request, and every
    row has a cell for each of the four columns. *)
Theorem render_one_row_per_pull_request check_call opts_open prs t :
  render check_call opts_open prs = Printed t →
  length (table_rows t) = length prs
  ∧ Forall (λ r, length r = length (table_columns t)) (table_rows t).
Proof.
  unfold render.
  destruct (add_rows _ _ _ _) as [cmd|rows] eqn:Hrows; [done|].
  intros [= <-]. simpl. apply add_rows_rows in Hrows. subst rows.
  split.
  - rewrite length_fmap. apply Permutation_length.
    apply (stable_sort_perm sort_key (flip key_ltb)).
  - apply Forall_fmap, Forall_forall. by intros d _.
Qed.

(** ** [os.path.commonprefix] is a prefix of every string of the list *)

Lemma ascii_compare_refl c : Ascii_as_OT.compare c c = Eq.
Proof.
  destruct (Ascii_as_OT.compare_spec c c) as [_|H|H]; [done|..];
    by apply (irreflexivity Ascii_as_OT.lt) in H.
Qed.

Lemma ascii_compare_gt c1 c2 :
  Ascii_as_OT.compare c1 c2 = Gt → Ascii_as_OT.compare c2 c1 = Lt.
Proof.
  intros H12.
  destruct (Ascii_as_OT.compare_spec c1 c2) as [Heq|Hgt|Hlt]; [done..|].
  destruct (Ascii_as_OT.compare_spec c2 c1) as [Heq|Hlt'|Hgt]; [|done|].
  - rewrite Heq in Hlt. by apply (irreflexivity Ascii_as_OT.lt) in Hlt.
  - exfalso. apply (irreflexivity Ascii_as_OT.lt c1). by trans c2.
Qed.

Lemma ascii_compare_eq c1 c2 : Ascii_as_OT.compare c1 c2 = Eq → c1 = c2.
Proof. by destruct (Ascii_as_OT.compare_spec c1 c2). Qed.

Lemma common_between a : ∀ b s,
  Str.ltb s a = false → Str.ltb b s = false → ∃ rest, s = Str.common a b +:+ rest.
Proof.
  induction a as [|c1 r1 IH]; intros b s Hsa Hbs; [by exists s|].
  destruct b as [|c2 r2]; [by exists s|]. simpl.
  destruct (Ascii.eqb_spec c1 c2) as [<-|Hne]; [|by exists s].
  destruct s as [|c3 r3]; [done|].
  unfold Str.ltb in Hsa, Hbs. simpl in Hsa, Hbs.
  destruct (Ascii_as_OT.compare c3 c1) eqn:Hc; try done.
  - apply ascii_compare_eq in Hc as ->.
    rewrite ascii_compare_refl in Hbs.
    destruct (IH r2 r3) as [rest ->]; [done..|]. by exists rest.
  - apply ascii_compare_gt in Hc. by rewrite Hc in Hbs.
Qed.

Lemma commonprefix_prefix m s :
  s ∈ m → ∃ rest, s = Str.commonprefix m +:+ rest.
Proof.
  destruct m as [|s0 m]; [by intros ?%elem_of_nil|]. intros Hs. simpl.
  apply common_between.
  - apply (foldr_min_spec Str.ltb s0 m); try done.
    + apply str_ltb_irrefl.
    + apply str_ltb_trans.
    + apply str_ltb_total.
  - apply (foldr_min_spec (flip Str.ltb) s0 m); unfold flip; try done.
    + intros a. apply str_ltb_irrefl.
    + intros a b c Hab Hbc. by apply (str_ltb_trans c b a).
    + intros a b Hab Hba. by apply str_ltb_total.
Qed.

Lemma drop_app p rest : Str.drop (String.length p) (p +:+ rest) = rest.
Proof. induction p as [|c p IH]; [by destruct rest|]. exact IH. Qed.

(** X9.  The title and the Date column lose nothing: the prefix shown in
    the title followed by a row's Date cell is the pull request's whole
    time stamp. *)
Theorem date_column_restores_timestamp check_call opts_open prs t :
  render check_call opts_open prs = Printed t →
  ∃ prefix, table_title t = "Pull requests @ " +:+ prefix
    ∧ Forall2 (λ d r, ∃ date cells, r = date :: cells
                        ∧ prefix +:+ date = updated_at d.2)
              (sorted sort_key key_ltb true prs) (table_rows t).
Proof.
  unfold render.
  destruct (add_rows _ _ _ _) as [cmd|rows] eqn:Hrows; [done|].
  intros [= <-]. simpl. apply add_rows_rows in Hrows. subst rows.
  eexists. split; [done|].
  apply Forall2_fmap_r, Forall_Forall2_diag, Forall_forall.
  intros d Hd. eexists _, _. split; [done|].
  destruct (commonprefix_prefix ((λ d, updated_at d.2) <$> prs) (updated_at d.2))
    as [rest Hrest].
  { apply list_elem_of_fmap. exists d. split; [done|].
    by rewrite <- (stable_sort_perm sort_key (flip key_ltb) prs). }
  rewrite Hrest at 1. by rewrite drop_app.
Qed.

End MoreOpenPRsFacts.

(** * [str.split] and [str.join] *)

Section SplitFacts.
Import InstallUvPython InstallTables.

Lemma split_nonempty sep s : split sep s ≠ [].
Proof.
  destruct s as [|c s]; simpl; [done|].
  destruct (Ascii.eqb c sep); [done|]. by destruct (split sep s).
Qed.

Lemma split_lacks sep s : lacks sep s = true → split sep s = [s].
Proof.
  induction s as [|c s IH]; simpl; [done|].
  destruct (Ascii.eqb c sep); simpl; [done|]. intros Hs. by rewrite IH.
Qed.

Lemma split_app sep a rest :
  lacks sep a = true → split sep (a +:+ String sep rest) = a :: split sep rest.
Proof.
  induction a as [|c a IH]; intros Ha.
  - change (EmptyString +:+ String sep rest) with (String sep rest).
    simpl. by rewrite Ascii.eqb_refl.
  - change (String c a +:+ String sep rest) with (String c (a +:+ String sep rest)).
    simpl in *. destruct (Ascii.eqb c sep); [done|]. simpl in Ha.
    by rewrite IH.
Qed.

(** [sep.join(s.split(sep)) == s] for every string and separator. *)
Lemma join_split sep s : join (String sep EmptyString) (split sep s) = s.
Proof.
  induction s as [|c s IH]; [done|]. simpl.
  destruct (Ascii.eqb_spec c sep) as [->|Hne].
  - destruct (split sep s) as [|w ws] eqn:Hsplit; [by apply split_nonempty in Hsplit|].
    change (join (String sep EmptyString) (EmptyString :: w :: ws))
      with (String sep (join (String sep EmptyString) (w :: ws))).
    by rewrite IH.
  - destruct (split sep s) as [|w ws] eqn:Hsplit; [by apply split_nonempty in Hsplit|].
    rewrite <- IH. by destruct ws.
Qed.

(** X16.  [minor] keeps the first two dot-separated fields of a version and
    leaves a version with fewer than two dots unchanged. *)
Theorem minor_keeps_two_fields major minor_ rest :
  lacks "." major = true → lacks "." minor_ = true →
  minor (major +:+ "." +:+ minor_ +:+ "." +:+ rest) = major +:+ "." +:+ minor_
  ∧ minor (major +:+ "." +:+ minor_) = major +:+ "." +:+ minor_
  ∧ minor major = major.
Proof.
  intros Ha Hb. unfold minor. repeat split.
  - change (major +:+ "." +:+ minor_ +:+ "." +:+ rest)
      with (major +:+ String "." (minor_ +:+ String "." rest)).
    rewrite !split_app by done.
    destruct (split "." rest) as [|w ws] eqn:Hsplit; [by apply split_nonempty in Hsplit|].
    done.
  - change (major +:+ "." +:+ minor_) with (major +:+ String "." minor_).
    rewrite split_app, split_lacks by done. done.
  - by rewrite split_lacks.
Qed.

End SplitFacts.

(** * [Open.run] and the dispatch of [main] *)

Section OpenFacts.
Import Github InstallUvPython InstallTables.

Lemma unpack2_full_name p :
  Open.well_formed p → Open.unpack2 (split "/" (Open.full_name p)) = Some p.
Proof.
  destruct p as [org repo]. intros [Ho Hr]. unfold Open.full_name. simpl in *.
  change (org +:+ "/" +:+ repo) with (org +:+ String "/" repo).
  by rewrite split_app, split_lacks.
Qed.

Lemma unpack2_None parts : length parts ≠ 2 → Open.unpack2 parts = None.
Proof. by destruct parts as [|a [|b [|c parts]]]. Qed.

(** The loop gets through any run of good names whose pages open. *)
Lemma add_rows_good check_call suffix pairs rest :
  Forall Open.well_formed pairs →
  Forall (λ p, check_call ["open"; Open.url p.1 p.2 suffix] = true) pairs →
  Open.add_rows check_call suffix ((Open.full_name <$> pairs) ++ rest)
  = (((λ p, ["open"; Open.url p.1 p.2 suffix]) <$> pairs)
       ++ (Open.add_rows check_call suffix rest).1,
     match (Open.add_rows check_call suffix rest).2 with
     | inl e => inl e
     | inr rows => inr (((λ p, Open.row p.1 p.2 suffix) <$> pairs) ++ rows)
     end).
Proof.
  intros Hwf Hok. induction Hwf as [|p pairs Hp _ IH].
  - simpl. by destruct (Open.add_rows check_call suffix rest) as [calls [e|rows]].
  - apply Forall_cons in Hok as [Hck Hok].
    rewrite fmap_cons. cbn [app Open.add_rows].
    rewrite (unpack2_full_name p Hp). destruct p as [org repo]. simpl in Hck.
    rewrite Hck, (IH Hok). simpl.
    by destruct (Open.add_rows check_call suffix rest) as [calls [e|rows]].
Qed.

(** X10.  When every name of [repos.json] is [owner/repository] and every
    page opens, [Open.run] opens one page per entry, in file order, and
    prints one row per entry in the same order. *)
Theorem open_run_opens_every_repository check_call suffix github pairs :
  GH.repo_names github = Open.full_name <$> pairs →
  Forall Open.well_formed pairs →
  Forall (λ p, check_call ["open"; Open.url p.1 p.2 suffix] = true) pairs →
  Open.run check_call suffix github
  = ((λ p, ["open"; Open.url p.1 p.2 suffix]) <$> pairs,
     inr {| OpenPRs.table_title := "Open";
            OpenPRs.table_columns := ["Org"; "Repo"];
            OpenPRs.table_rows := (λ p, Open.row p.1 p.2 suffix) <$> pairs |}).
Proof.
  intros Hnames Hwf Hok. unfold Open.run. rewrite Hnames.
  rewrite <- (app_nil_r (Open.full_name <$> pairs)).
  rewrite (add_rows_good _ _ _ [] Hwf Hok). simpl. by rewrite !app_nil_r.
Qed.

(** X11.  [Open.run] stops at the first name it cannot use: a name that does
    not split into exactly two parts raises [ValueError], a page that
    does not open raises [CalledProcessError]; the pages of the names
    before it have been opened, those after it are not, and no table is
    printed. *)
Theorem open_run_stops_at_first_problem check_call suffix github pairs rest :
  Forall Open.well_formed pairs →
  Forall (λ p, check_call ["open"; Open.url p.1 p.2 suffix] = true) pairs →
  (∀ bad, GH.repo_names github = (Open.full_name <$> pairs) ++ bad :: rest →
     length (split "/" bad) ≠ 2 →
     Open.run check_call suffix github
     = ((λ p, ["open"; Open.url p.1 p.2 suffix]) <$> pairs, inl Open.ValueError))
  ∧ (∀ p, GH.repo_names github = (Open.full_name <$> pairs) ++ Open.full_name p :: rest →
       Open.well_formed p →
       check_call ["open"; Open.url p.1 p.2 suffix] = false →
       Open.run check_call suffix github
       = (((λ p, ["open"; Open.url p.1 p.2 suffix]) <$> pairs)
            ++ [["open"; Open.url p.1 p.2 suffix]],
          inl (Open.CalledProcessError ["open"; Open.url p.1 p.2 suffix]))).
Proof.
  intros Hwf Hok. split.
  - intros bad Hnames Hbad. unfold Open.run. rewrite Hnames.
    rewrite (add_rows_good _ _ _ _ Hwf Hok). cbn [Open.add_rows].
    rewrite (unpack2_None _ Hbad). simpl. by rewrite app_nil_r.
  - intros p Hnames Hp Hck. unfold Open.run. rewrite Hnames.
    rewrite (add_rows_good _ _ _ _ Hwf Hok). cbn [Open.add_rows].
    rewrite (unpack2_full_name p Hp). destruct p as [org repo]. simpl in Hck.
    by rewrite Hck.
Qed.

(** X12.  [main] runs the command whose name or alias was given, and only
    then: no name or alias of a later command is taken by an earlier
    one, and the help texts are not names. *)
Theorem to_run_by_name_or_alias cmd_name c :
  Main.to_run cmd_name = Some c
  ↔ cmd_name = (Main.parser_name_alias_help c).1.1
    ∨ cmd_name = (Main.parser_name_alias_help c).1.2.
Proof.
  unfold Main.to_run, Main.cmd_classes, Main.answers_to. simpl.
  destruct (String.eqb_spec cmd_name "pr") as [->|Hpr].
  { simpl. destruct c; split; try done; try (by left).
    intros [?|?]; discriminate. }
  destruct (String.eqb_spec cmd_name "p") as [->|Hp].
  { simpl. destruct c; split; try done; try (by right).
    intros [?|?]; discriminate. }
  destruct (String.eqb_spec cmd_name "open") as [->|Hopen].
  { simpl. destruct c; split; try done; try (by left).
    intros [?|?]; discriminate. }
  destruct (String.eqb_spec cmd_name "o") as [->|Ho].
  { simpl. destruct c; split; try done; try (by right).
    intros [?|?]; discriminate. }
  simpl. split; [done|]. destruct c; simpl; intros [?|?]; congruence.
Qed.

End OpenFacts.

(** * More about the installer *)

Section MoreInstallFacts.
Import InstallUvPython InstallTables.

Lemma check_calls_first_failure ok cmds w cmd :
  check_calls ok cmds w = inl cmd
  ↔ ∃ before after, cmds = before ++ cmd :: after
      ∧ Forall (λ c, ok c = true) before ∧ ok cmd = false.
Proof.
  revert w. induction cmds as [|c cmds IH]; intros w; simpl.
  - split; [done|]. intros (before & after & Heq & _). by destruct before.
  - destruct (ok c) eqn:Hc.
    + rewrite IH. split.
      * intros (before & after & -> & Hb & Hcmd).
        exists (c :: before), after. repeat split; [|done]. by constructor.
      * intros (before & after & Heq & Hb & Hcmd).
        destruct before as [|c' before]; simplify_eq/=; [congruence|].
        apply Forall_cons in Hb as [_ Hb]. eauto.
    + split.
      * intros [= <-]. exists [], cmds. by repeat split.
      * intros (before & after & Heq & Hb & Hcmd).
        destruct before as [|c' before]; simplify_eq/=; [done|].
        apply Forall_cons in Hb as [Hc' _]. congruence.
Qed.

Lemma check_calls_success ok cmds w :
  (∃ w', check_calls ok cmds w = inr w') ↔ Forall (λ c, ok c = true) cmds.
Proof.
  revert w. induction cmds as [|c cmds IH]; intros w; simpl.
  - split; [done|eauto].
  - destruct (ok c) eqn:Hc.
    + rewrite IH. split; [by constructor|]. by intros [_ ?]%Forall_cons.
    + split; [by intros [w' ?]|]. intros [? _]%Forall_cons. congruence.
Qed.

(** X13.  [run] fails fast: it raises for a command exactly when that is the
    first command, in order, to exit with a non-zero status, and it
    completes exactly when every command exits with status 0. *)
Theorem run_stops_at_first_failure ok home w :
  (∀ cmd, run ok home w = inl cmd
     ↔ ∃ before after, commands home = before ++ cmd :: after
         ∧ Forall (λ c, ok c = true) before ∧ ok cmd = false)
  ∧ ((∃ w', run ok home w = inr w')
     ↔ Forall (λ c, ok c = true) (commands home)).
Proof.
  split.
  - intros cmd. apply check_calls_first_failure.
  - apply check_calls_success.
Qed.

(** ** The links after a complete run *)

Lemma links_effect cmd w :
  links (effect cmd w)
  = match link_of cmd with
    | Some (link, target) => <[link := target]> (links w)
    | None => links w
    end.
Proof.
  unfold effect, link_of.
  repeat (match goal with
          | |- context [match ?x with _ => _ end] => destruct x
          end; try done).
Qed.

Lemma check_calls_links ok cmds w w' :
  check_calls ok cmds w = inr w' → links w' = assign (links w) cmds.
Proof.
  revert w. induction cmds as [|cmd cmds IH]; intros w; simpl.
  - by intros [= <-].
  - destruct (ok cmd); [|done]. intros Hw'%IH.
    by rewrite Hw', links_effect.
Qed.

Lemma assign_frame m cmds p :
  p ∉ omap (λ cmd, fst <$> link_of cmd) cmds → assign m cmds !! p = m !! p.
Proof.
  revert m. induction cmds as [|cmd cmds IH]; intros m Hp; [done|].
  simpl in *. destruct (link_of cmd) as [[link target]|]; simpl in Hp.
  - apply not_elem_of_cons in Hp as [Hne Hp].
    rewrite IH by done. by rewrite lookup_insert_ne.
  - by apply IH.
Qed.

Lemma assign_lookup m cmds link target :
  NoDup (omap (λ cmd, fst <$> link_of cmd) cmds) →
  Some (link, target) ∈ link_of <$> cmds →
  assign m cmds !! link = Some target.
Proof.
  revert m. induction cmds as [|cmd cmds IH]; intros m Hnd Hin.
  - by apply elem_of_nil in Hin.
  - rewrite fmap_cons in Hin. simpl in *.
    destruct (link_of cmd) as [[link' target']|] eqn:Hcmd; simpl in Hnd.
    + apply NoDup_cons in Hnd as [Hnotin Hnd].
      apply elem_of_cons in Hin as [[= <- <-]|Hin].
      * rewrite assign_frame by done. apply lookup_insert_eq.
      * by apply IH.
    + apply elem_of_cons in Hin as [?|Hin]; [done|]. by apply IH.
Qed.

Lemma commands_links home :
  link_of <$> commands home
  = flat_map (λ p, [None; Some (joinpath (dest home) p.1, interpreter home p.2)])
             (removelast link_table)
    ++ [Some (joinpath (dest home) "python", interpreter home "cpython-3.13.2-macos-aarch64-none")].
Proof. vm_compute. reflexivity. Qed.


Lemma commands_link_paths home :
  omap (λ cmd, fst <$> link_of cmd) (commands home) = link_paths home.
Proof. vm_compute. reflexivity. Qed.

Lemma link_paths_NoDup home : NoDup (link_paths home).
Proof.
  assert (link_paths home = joinpath (dest home) <$> link_table.*1) as ->
    by (unfold link_paths; by rewrite <- list_fmap_compose).
  apply NoDup_fmap_2.
  - intros a b. apply joinpath_inj.
  - apply (bool_decide_unpack _). vm_compute. exact I.
Qed.

(** X14.  After a complete run every listed version has its link:
    [pythonX.Y] for a CPython and [pypyX.Y] for a PyPy, pointing at the
    interpreter of exactly that release; no later command overwrites
    it. *)
Theorem run_links_every_version ok home w w' impl versions version :
  run ok home w = inr w' →
  (impl, versions) ∈ py → version ∈ versions →
  links w' !! joinpath (dest home)
                ((if String.eqb impl "cpython" then "python" else "pypy")
                   +:+ minor version)
  = Some (joinpath (joinpath (joinpath (src home)
            (impl +:+ "-" +:+ version +:+ "-macos-aarch64-none")) "bin") "python").
Proof.
  intros Hrun Himpl Hversion.
  rewrite (check_calls_links _ _ _ _ Hrun).
  apply assign_lookup.
  - rewrite commands_link_paths. apply link_paths_NoDup.
  - unfold py in Himpl.
    repeat match goal with
           | H : _ ∈ [] |- _ => by apply elem_of_nil in H
           | H : (_, _) ∈ _ :: _ |- _ =>
               apply elem_of_cons in H as [[= -> ->]|H]
           | H : _ ∈ _ :: _ |- _ => apply elem_of_cons in H as [->|H]
           end;
      vm_compute; repeat first [left | right].
Qed.


End MoreInstallFacts.

(** * [apply_fix] *)

Section BumpFacts.
Import BumpDepsTools.

Lemma run_all_raises ok cmds ran cmd :
  run_all ok cmds = (ran, Some cmd) → (cmd, true) ∈ cmds ∧ ok cmd = false.
Proof.
  revert ran. induction cmds as [|[c check] cmds IH]; intros ran; simpl; [done|].
  destruct check; simpl.
  - destruct (ok c) eqn:Hc; simpl.
    + destruct (run_all ok cmds) as [ran' exn]. intros [= <- ->].
      destruct (IH _ eq_refl). split; [by right|done].
    + intros [= <- <-]. split; [left|done].
  - destruct (run_all ok cmds) as [ran' exn]. intros [= <- ->].
    destruct (IH _ eq_refl). split; [by right|done].
Qed.

(** X17.  [apply_fix] raises only when [bump_deps_index] or
    [pre-commit autoupdate] fails; a failing
    [pre-commit run --all-files] never makes it raise, and that command
    is run exactly when the two before it succeeded. *)
Theorem apply_fix_ignores_failing_hooks ok executable pc :
  let bump := [executable; "-m"; "bump_deps_index"; "-p"; "no"] in
  let autoupdate := [pc; "autoupdate"; "-j"; "12"] in
  let hooks := [pc; "run"; "--all-files"] in
  ((apply_fix ok executable pc).2 = None
   ↔ ok bump = true ∧ ok autoupdate = true)
  ∧ (hooks ∈ (apply_fix ok executable pc).1
     ↔ ok bump = true ∧ ok autoupdate = true)
  ∧ ∀ cmd, (apply_fix ok executable pc).2 = Some cmd →
      (cmd = bump ∨ cmd = autoupdate) ∧ ok cmd = false.
Proof.
  intros bump autoupdate hooks. unfold apply_fix, fix_commands. simpl.
  fold bump autoupdate hooks.
  destruct (ok bump) eqn:Hb; simpl; [destruct (ok autoupdate) eqn:Ha; simpl|];
    rewrite ?elem_of_cons, ?elem_of_nil; subst bump autoupdate hooks;
    repeat split; intros; destruct_and?; destruct_or?; simplify_eq; auto.
Qed.

End BumpFacts.

(** * The further theorems at concrete inputs *)

Section MoreWitnesses.
Import Github GH Examples MoreExamples.

Lemma open_prs_lists_every_pull_request_witness :
  (∃ sched prs, open_prs two_repos sched = Some (Return prs))
  ∧ ∀ sched o, open_prs two_repos sched = Some o →
      ∃ prs, o = Return prs
        ∧ prs ≡ₚ [(tox [pr_1; pr_2], pr_1); (tox [pr_1; pr_2], pr_2);
                  (pyproject_api, pr_3)].
Proof.
  apply (open_prs_lists_every_pull_request two_repos
           [tox [pr_1; pr_2]; pyproject_api]).
  repeat constructor.
Defined.

Lemma parallel_raises_some_failure_witness :
  (∃ sched, _parallel both_fail ab sched = Some (Raise "second"))
  ∧ ∀ sched o, _parallel both_fail ab sched = Some o →
      ∃ j d' e', o = Raise e' ∧ ab !! j = Some d'
                 ∧ failure_of (both_fail d') = Some e'.
Proof.
  apply (parallel_raises_some_failure both_fail ab 1 "b" "second");
    reflexivity.
Defined.


Lemma parallel_who_produces_witness :
  ∃ s, steps lazily in_turn (init abc) = Some s
    ∧ productions (trace s)
      = [(Caller, 0, "a1"); (Caller, 0, "a2"); (Caller, 1, "b1");
         (Caller, 1, "b2"); (Caller, 2, "c1"); (Caller, 2, "c2")]
    ∧ Forall (λ p, p.1.1 = Caller) (productions (trace s)).
Proof.
  destruct (steps lazily in_turn (init abc)) as [s|] eqn:Hs;
    [|vm_compute in Hs; discriminate Hs].
  exists s. split; [reflexivity|].
  assert (Hgen : Forall (λ d, ∃ g, lazily d = CallReturns (IGen g)) abc)
    by (repeat constructor; eexists; reflexivity).
  pose proof (proj2 (parallel_who_produces lazily abc in_turn s Hs) Hgen) as Hwho.
  split; [|exact Hwho].
  vm_compute in Hs. injection Hs as <-. reflexivity.
Defined.

Lemma parallel_no_identifiers_witness :
  ∃ s, steps two_items [AsCompleted; EndLoop; Exit] (init []) = Some s
    ∧ workers s = []
    ∧ trace s = match main s with Done _ => [EvShutdown] | _ => [] end
    ∧ ∀ o, main s = Done o → o = Return [].
Proof.
  destruct (steps two_items [AsCompleted; EndLoop; Exit] (init [])) as [s|] eqn:Hs;
    [|vm_compute in Hs; discriminate Hs].
  exists s. split; [reflexivity|].
  exact (parallel_no_identifiers two_items _ s Hs).
Defined.

Lemma render_one_row_per_pull_request_witness :
  ∃ t, OpenPRs.render always_ok true
         [(pyproject_api, pr_3); (tox [pr_1; pr_2], pr_1)] = OpenPRs.Printed t
    ∧ length (OpenPRs.table_rows t)
      = length [(pyproject_api, pr_3); (tox [pr_1; pr_2], pr_1)]
    ∧ Forall (λ r, length r = length (OpenPRs.table_columns t))
             (OpenPRs.table_rows t).
Proof.
  destruct (OpenPRs.render always_ok true
              [(pyproject_api, pr_3); (tox [pr_1; pr_2], pr_1)])
    as [e|cmd|t] eqn:Ht; try (vm_compute in Ht; discriminate Ht).
  exists t. split; [reflexivity|].
  exact (render_one_row_per_pull_request always_ok true _ t Ht).
Defined.

Lemma date_column_restores_timestamp_witness :
  ∃ t, OpenPRs.render always_ok false
         [(pyproject_api, pr_3); (tox [pr_1; pr_2], pr_1)] = OpenPRs.Printed t
    ∧ ∃ prefix, OpenPRs.table_title t = "Pull requests @ " +:+ prefix
        ∧ Forall2 (λ d r, ∃ date cells, r = date :: cells
                            ∧ prefix +:+ date = updated_at d.2)
            (OpenPRs.sorted OpenPRs.sort_key OpenPRs.key_ltb true
               [(pyproject_api, pr_3); (tox [pr_1; pr_2], pr_1)])
            (OpenPRs.table_rows t).
Proof.
  destruct (OpenPRs.render always_ok false
              [(pyproject_api, pr_3); (tox [pr_1; pr_2], pr_1)])
    as [e|cmd|t] eqn:Ht; try (vm_compute in Ht; discriminate Ht).
  exists t. split; [reflexivity|].
  exact (date_column_restores_timestamp always_ok false _ t Ht).
Defined.

Lemma minor_keeps_two_fields_witness :
  InstallUvPython.minor "3.13.2" = "3.13"
  ∧ InstallUvPython.minor "3.13" = "3.13"
  ∧ InstallUvPython.minor "3" = "3".
Proof.
  apply (minor_keeps_two_fields "3" "13" "2"); reflexivity.
Defined.

Lemma open_run_opens_every_repository_witness :
  Open.run always_ok "issues" two_repos
  = ([["open"; "https://github.com/tox-dev/tox/issues"];
      ["open"; "https://github.com/tox-dev/pyproject-api/issues"]],
     inr {| OpenPRs.table_title := "Open";
            OpenPRs.table_columns := ["Org"; "Repo"];
            OpenPRs.table_rows :=
              [Open.row "tox-dev" "tox" "issues";
               Open.row "tox-dev" "pyproject-api" "issues"] |}).
Proof.
  apply (open_run_opens_every_repository always_ok "issues" two_repos
           [("tox-dev", "tox"); ("tox-dev", "pyproject-api")]).
  - reflexivity.
  - repeat constructor.
  - repeat constructor.
Defined.

Lemma open_run_stops_at_first_problem_witness :
  Open.run always_ok EmptyString bad_name
  = ([["open"; "https://github.com/tox-dev/tox/"]], inl Open.ValueError).
Proof.
  apply (proj1 (open_run_stops_at_first_problem always_ok EmptyString bad_name
                  [("tox-dev", "tox")] ["tox-dev/filelock"]
                  ltac:(repeat constructor) ltac:(repeat constructor)) "tox").
  - reflexivity.
  - vm_compute. lia.
Defined.

Lemma run_links_every_version_witness :
  ∃ w', InstallUvPython.run always_ok "/Users/me" empty_world = inr w'
    ∧ InstallUvPython.links w' !! "/Users/me/.local/bin/pypy3.10"
      = Some "/Users/me/Library/Application Support/uv/python/pypy-3.10.14-macos-aarch64-none/bin/python".
Proof.
  destruct (InstallUvPython.run always_ok "/Users/me" empty_world)
    as [cmd|w'] eqn:Hrun; [vm_compute in Hrun; discriminate Hrun|].
  exists w'. split; [reflexivity|].
  apply (run_links_every_version always_ok "/Users/me" empty_world w'
           "pypy" ["3.8.16"; "3.9.19"; "3.10.14"] "3.10.14" Hrun).
  - right. left.
  - right. right. left.
Defined.


End MoreWitnesses.
